(** * wof-admin-lookup: the point-in-polygon master and the postal city table

    A shallow embedding of [src/pip/index.js] (the master process that
    cascades a lookup through one worker per layer) and of
    [src/postalCityMap.js] (the static postal code table), with the
    properties of the specification stated and proved over them.

    JavaScript objects used as dictionaries are finite maps ([gmap]), arrays
    are lists, [undefined] is [None], an uncaught exception is the outcome
    [Throw]. *)

From Stdlib Require Import NArith ZArith Ascii String Lia.
From stdpp Require Import base option list sets gmap strings sorting.

Local Open Scope string_scope.
Local Open Scope list_scope.
Local Open Scope N_scope.

(** ** The few lodash functions the code calls *)

Module Lodash.

(** [_.intersection(xs, ys)]: the values of [xs] that occur in [ys], in the
    order of [xs], each value once (its first occurrence). *)
Fixpoint baseIntersection (seen xs ys : list string) : list string :=
  match xs with
  | [] => []
  | x :: xs' =>
      if bool_decide (x ∉ seen) && bool_decide (x ∈ ys)
      then x :: baseIntersection (x :: seen) xs' ys
      else baseIntersection seen xs' ys
  end.

Definition intersection (xs ys : list string) : list string :=
  baseIntersection [] xs ys.

(** [_.compact(l)]: the elements of [l] that are not falsy. The only falsy
    value the master ever puts in such a list is [undefined]. *)
Definition compact {A : Type} (l : list (option A)) : list A :=
  omap id l.

(** [_.values(o)]: the property values of [o] in enumeration order; an
    object is kept as the list of its (key, value) pairs in that order. *)
Definition values {K A : Type} (o : list (K * A)) : list A :=
  map snd o.

(** [_.isEmpty(l)] on an array that may be [undefined]. *)
Definition isEmpty {A : Type} (l : option (list A)) : bool :=
  match l with
  | None | Some [] => true
  | Some (_ :: _) => false
  end.

End Lodash.

(** ** src/pip/index.js *)

Module Pip.

Import Lodash.

(** The canonical layers, from the finest to the coarsest. *)
Definition defaultLayers : list string :=
  [ "neighbourhood"; "borough"; "locality"; "localadmin"; "county";
    "macrocounty"; "macroregion"; "region"; "dependency"; "country";
    "marinearea"; "ocean" ].

(** Lines 39-42 of [createPIPService]: the layers the service is created
    with. [layers] is [None] when the caller passes [undefined]. *)
Definition createPIPService (layers : option (list string)) : list string :=
  intersection defaultLayers
    (if isEmpty layers then defaultLayers else default [] layers).

(** Lines 57-65 of [lookup]: the layers one lookup searches, for a service
    created with [layers]. *)
Definition lookup_search_layers (layers : list string)
    (search_layers : option (list string)) : list string :=
  match search_layers with
  | None => layers
  | Some requested => intersection layers requested
  end.

(** [requestCount++] on a JavaScript number that starts at 0: exact up to
    2^53, where adding one rounds back to 2^53. *)
Definition increment (n : N) : N :=
  if n <? 2 ^ 53 then n + 1 else n.

(** [Array.prototype.shift]: the first element ([undefined] on an empty
    array) and the array that is left. *)
Definition shift {A : Type} (l : list A) : option A * list A :=
  match l with
  | [] => (None, [])
  | x :: l' => (Some x, l')
  end.

(** A property key made from a value that may be [undefined]. *)
Definition property_key (k : option string) : string :=
  default "undefined" k.

Inductive JsError := TypeError.

Inductive Outcome (A : Type) :=
| Ok (a : A)
| Throw (e : JsError).
Arguments Ok {A} a.
Arguments Throw {A} e.

Section Master.

(** The coordinates are JavaScript numbers that the master only passes
    on; a feature record carries fields the master never reads. *)
Context {Num Meta : Type}.

(** The caller's [responseCallback], by name: calling it is an action of
    the master, not a computation of the model; what the callback goes
    on to do (another lookup, say) is a later event of the run. *)
Definition Callback := nat.

Record LatLon := { latitude : Num; longitude : Num }.

(** A record of [wofData]. [Hierarchy] is an array of objects from
    ancestor type to identifier; a missing or empty array is []. *)
Record FeatureRecord := {
  Id : string;
  Hierarchy : list (list (string * string));
  Properties : Meta
}.

(** The bookkeeping object of one request (lines 80-86). *)
Record Request := {
  results : list FeatureRecord;
  latLon : LatLon;
  search_layers : list string;
  responseCallback : Callback
}.

(** The module's variables. A worker is named by the layer it was
    forked for: [workers[layer]] is defined when [layer ∈ workers]. *)
Record State := {
  requestCount : N;
  workers : gset string;
  responseQueue : gmap N Request;
  wofData : gmap string FeatureRecord
}.

(** A [results] message of a worker: [msg_results] is the identifier of
    the matched feature ([msg.results.Id]), [None] when [msg.results] is
    empty. *)
Record Msg := { msg_id : N; msg_results : option string }.

Inductive LogEntry :=
| AlreadyPresent (id : N)
| MissingId (id : N).

(** What the master does to the outside. *)
Inductive Action :=
| Send (layer : string) (id : N) (coords : LatLon)
| Respond (cb : Callback) (err : option JsError) (res : list FeatureRecord)
| LogError (e : LogEntry).

Definition set_requestCount (n : N) (s : State) : State :=
  {| requestCount := n; workers := workers s;
     responseQueue := responseQueue s; wofData := wofData s |}.

Definition set_responseQueue (q : gmap N Request) (s : State) : State :=
  {| requestCount := requestCount s; workers := workers s;
     responseQueue := q; wofData := wofData s |}.

Definition set_search_layers (l : list string) (r : Request) : Request :=
  {| results := results r; latLon := latLon r; search_layers := l;
     responseCallback := responseCallback r |}.

(** [searchWorker(id, workers[layer], coords)]: sending to a worker that
    does not exist is a [TypeError]. *)
Definition searchWorker (s : State) (id : N) (layer : option string)
    (coords : LatLon) : Outcome (State * list Action) :=
  if bool_decide (property_key layer ∈ workers s)
  then Ok (s, [Send (property_key layer) id coords])
  else Throw TypeError.

(** The [lookup] method of the service (lines 56-94). *)
Definition lookup (layers : list string) (s : State)
    (lat lon : Num) (requested : option (list string))
    (cb : Callback) : Outcome (State * list Action) :=
  let searched := lookup_search_layers layers requested in
  let id := requestCount s in
  let s := set_requestCount (increment id) s in
  if (length searched =? 0)%nat then
    Ok (s, [Respond cb None []])
  else if bool_decide (is_Some (responseQueue s !! id)) then
    Ok (s, [LogError (AlreadyPresent id); Respond cb None []])
  else
    let coords := {| latitude := lat; longitude := lon |} in
    let '(first, rest) := shift searched in
    let req := {| results := []; latLon := coords;
                  search_layers := rest; responseCallback := cb |} in
    searchWorker (set_responseQueue (<[id := req]> (responseQueue s)) s)
      id first coords.

(** [handleResults] (lines 142-180). *)
Definition handleResults (s : State) (msg : Msg)
    : Outcome (State * list Action) :=
  match responseQueue s !! msg_id msg with
  | None => Ok (s, [LogError (MissingId (msg_id msg))])
  | Some req =>
      match msg_results msg with
      | None =>
          if negb (isEmpty (Some (search_layers req))) then
            let '(next, rest) := shift (search_layers req) in
            searchWorker
              (set_responseQueue
                 (<[msg_id msg := set_search_layers rest req]>
                    (responseQueue s)) s)
              (msg_id msg) next (latLon req)
          else
            Ok (s, [Respond (responseCallback req) None []])
      | Some matched =>
          match wofData s !! matched with
          | None => Throw TypeError
          | Some record =>
              let answer :=
                match Hierarchy record with
                | first :: _ =>
                    compact (map (λ id, wofData s !! id) (values first))
                | [] => [record]
                end in
              Ok (set_responseQueue (delete (msg_id msg) (responseQueue s)) s,
                  [Respond (responseCallback req) None answer])
          end
      end
  end.

(** *** Runs of the master

    The master is driven by calls of [lookup] and by [results] messages;
    an uncaught exception ends the run. *)
Inductive Event :=
| LookupCall (lat lon : Num) (requested : option (list string))
    (cb : Callback)
| ResultsMsg (msg : Msg).

Definition handle (layers : list string) (s : State) (e : Event)
    : Outcome (State * list Action) :=
  match e with
  | LookupCall lat lon requested cb => lookup layers s lat lon requested cb
  | ResultsMsg msg => handleResults s msg
  end.

(** The actions of a run, in order, and the state it ends in ([None]
    after an exception). No assumption is made on the messages: this is
    the master against arbitrary workers. *)
Fixpoint run (layers : list string) (s : State) (events : list Event)
    : list Action * option State :=
  match events with
  | [] => ([], Some s)
  | e :: events' =>
      match handle layers s e with
      | Throw _ => ([], None)
      | Ok (s', acts) =>
          let '(acts', final) := run layers s' events' in
          (acts ++ acts', final)
      end
  end.

(** The searches among some actions: request id and layer. *)
Definition sent (acts : list Action) : list (N * string) :=
  omap (λ a, match a with
             | Send layer id _ => Some (id, layer)
             | _ => None
             end) acts.

(** The lists answered to callbacks among some actions. *)
Definition responded (acts : list Action)
    : list (Callback * list FeatureRecord) :=
  omap (λ a, match a with
             | Respond cb _ res => Some (cb, res)
             | _ => None
             end) acts.

(** *** The master with its workers

    [outstanding] holds the searches that were sent and not yet
    answered. [dispatched] is a history variable: for each request id,
    the layers searched so far for the request that currently owns the
    id, oldest first. *)
Record System := {
  master : State;
  outstanding : list (N * string);
  dispatched : gmap N (list string)
}.

Definition initial (layers : list string)
    (wof : gmap string FeatureRecord) : System :=
  {| master := {| requestCount := 0; workers := list_to_set layers;
                  responseQueue := ∅; wofData := wof |};
     outstanding := [];
     dispatched := ∅ |}.

(** A call of [lookup] opens the history of the id it searches for. *)
Definition after_lookup (σ : System) (s' : State) (acts : list Action)
    : System :=
  {| master := s';
     outstanding := outstanding σ ++ sent acts;
     dispatched := foldl (λ d '(id, layer), <[id := [layer]]> d)
                     (dispatched σ) (sent acts) |}.

(** A reply takes its search out of [outstanding]; a search sent while
    handling it extends the history of its id. *)
Definition after_results (σ : System) (rest : list (N * string))
    (s' : State) (acts : list Action) : System :=
  {| master := s';
     outstanding := rest ++ sent acts;
     dispatched := foldl (λ d '(id, layer), alter (λ h, h ++ [layer]) id d)
                     (dispatched σ) (sent acts) |}.

(** Modelled from the spec: the worker script, src/pip/worker.js, is
    not among the sources. By the message contract of the specification
    a search unit answers a [search] message with one [results] message
    that carries the same request id and a matched identifier or none:
    a reply takes one outstanding search and hands its id to
    [handleResults]. A worker may also never answer. The calls of
    [lookup] and [handleResults] are those of the source. *)
Inductive reachable (layers : list string) : System → Prop :=
| reachable_initial wof :
    reachable layers (initial layers wof)
| reachable_lookup σ lat lon requested cb s' acts :
    reachable layers σ →
    lookup layers (master σ) lat lon requested cb = Ok (s', acts) →
    reachable layers (after_lookup σ s' acts)
| reachable_results σ before id layer after reply s' acts :
    reachable layers σ →
    outstanding σ = before ++ (id, layer) :: after →
    handleResults (master σ) {| msg_id := id; msg_results := reply |}
      = Ok (s', acts) →
    reachable layers (after_results σ (before ++ after) s' acts).

(** What holds of every reachable system: searches that are outstanding
    have distinct request ids; an outstanding search belongs to a pending
    request and is the last one of its history; the history of a pending
    request followed by its queue lists layers in the order of the
    service. *)
Definition cascade_invariant (layers : list string) (σ : System) : Prop :=
  NoDup (outstanding σ).*1
  ∧ (∀ id layer, (id, layer) ∈ outstanding σ →
       is_Some (responseQueue (master σ) !! id)
       ∧ ∃ h, dispatched σ !! id = Some (h ++ [layer]))
  ∧ (∀ id req, responseQueue (master σ) !! id = Some req →
       ∃ h, dispatched σ !! id = Some h
            ∧ (h ++ search_layers req) `sublist_of` layers).

(** *** The hierarchy assembler, in the words of the specification

    Resolve every entry of a hierarchy mapping through the dataset and
    drop the entries whose identifier is absent. *)
Fixpoint resolve_entries (dataset : gmap string FeatureRecord)
    (entries : list (string * string)) : list FeatureRecord :=
  match entries with
  | [] => []
  | (_, ident) :: entries' =>
      match dataset !! ident with
      | Some record => record :: resolve_entries dataset entries'
      | None => resolve_entries dataset entries'
      end
  end.

(** [resolve(featureId)] of the specification for a feature whose record
    is [record]. *)
Definition HierarchyAssembler_resolve
    (dataset : gmap string FeatureRecord) (record : FeatureRecord)
    : list FeatureRecord :=
  match Hierarchy record with
  | [] => [record]
  | first :: _ => resolve_entries dataset first
  end.

End Master.

Arguments LatLon : clear implicits.
Arguments FeatureRecord : clear implicits.
Arguments Request : clear implicits.
Arguments State : clear implicits.
Arguments Action : clear implicits.
Arguments Event : clear implicits.
Arguments System : clear implicits.

End Pip.

(** ** src/postalCityMap.js *)

Module PostalCityMap.

(** The functions below look inside strings, so a JavaScript string is
    kept as what it is: the list of its UTF-16 code units. *)
Abbreviation JsString := (list N).

(** A string literal of ASCII characters. *)
Definition js (s : string) : JsString :=
  map N_of_ascii (list_ascii_of_string s).

(** ISO country codes using the USA 'zip' system. *)
Definition USA_ISO_CODES : list JsString :=
  [ js "USA"; js "ASM"; js "GUM"; js "MNP"; js "PRI"; js "VIR" ].

(** The regular expression classes [\d], [\s] and the line terminators
    that [.] does not match (regular expressions without the [u] flag work
    on code units). *)
Definition is_digit (c : N) : bool := (48 <=? c) && (c <=? 57).

Definition is_line_terminator (c : N) : bool :=
  bool_decide (c ∈ [ 10; 13; 8232; 8233 ]).

Definition is_white_space (c : N) : bool :=
  bool_decide (c ∈ [ 9; 11; 12; 32; 160; 5760; 8239; 8287; 12288; 65279 ])
  || ((8192 <=? c) && (c <=? 8202))
  || is_line_terminator c.

(** [postcode.match(/\d{5}/)]: the first five consecutive digits. *)
Fixpoint match_five_digits (postcode : JsString) : option JsString :=
  match postcode with
  | [] => None
  | _ :: rest =>
      if (length (take 5 postcode) =? 5)%nat
         && forallb is_digit (take 5 postcode)
      then Some (take 5 postcode)
      else match_five_digits rest
  end.

(** [postcode.replace(/-.*$/, '')]: cut at the first hyphen that no line
    terminator separates from the end of the string. *)
Fixpoint remove_hyphen_to_end (postcode : JsString) : JsString :=
  match postcode with
  | [] => []
  | c :: rest =>
      if (c =? 45) && forallb (λ d, negb (is_line_terminator d)) rest
      then []
      else c :: remove_hyphen_to_end rest
  end.

(** One row of a table, as [loadTable] builds it (lines 76-82); a weight
    that [parseInt] could not read is [None]. *)
Record Alternative := {
  wofid : JsString;
  name : JsString;
  abbr : option JsString;
  placetype : option JsString;
  weight : option Z
}.

Section Tables.

(** [String.prototype.toUpperCase] is left to the JavaScript engine. *)
Variable toUpperCase : JsString → JsString.

(** [tables] is filled once, when the module is loaded, from data files
    that are not part of the sources: per country code, the candidates
    of each normalized postal code, heaviest first. *)
Variable tables : gmap JsString (gmap JsString (list Alternative)).

(** [normalizePostcode] (lines 126-140); [loadTable] calls it without an
    [isocode]. *)
Definition normalizePostcode (postcode : JsString)
    (isocode : option JsString) : JsString :=
  if bool_decide (isocode ∈ Some <$> USA_ISO_CODES) then
    match match_five_digits postcode with
    | Some digits => digits
    | None =>
        take 5 (filter (λ c, is_digit c = true)
                  (remove_hyphen_to_end postcode))
    end
  else
    filter (λ c, is_white_space c = false) (toUpperCase postcode).

(** [lookup] (lines 143-151); [null] is [None]. The function reads
    [tables] and writes nothing. *)
Definition lookup (isocode postalcode : JsString)
    : option (list Alternative) :=
  match tables !! isocode with
  | None => None
  | Some table =>
      let postalcode := normalizePostcode postalcode (Some isocode) in
      match table !! postalcode with
      | None => None
      | Some alternatives => Some alternatives
      end
  end.

End Tables.

(** Five digits in a row from position [i] of a string: a place where
    [/\d{5}/] matches. *)
Definition five_digits_at (i : nat) (s : JsString) : Prop :=
  length (take 5 (drop i s)) = 5%nat
  ∧ forallb is_digit (take 5 (drop i s)) = true.

(** The module over time. [tables] is its one variable and [lookup] the one
    function it exports: a call, with its country code and postal code,
    answers and leaves the module with some [tables]. Lines 143-151 assign
    nothing but their own parameter [postalcode]. *)
Definition lookup_call (toUpperCase : JsString → JsString)
    (tables : gmap JsString (gmap JsString (list Alternative)))
    (call : JsString * JsString)
    : option (list Alternative)
      * gmap JsString (gmap JsString (list Alternative)) :=
  (lookup toUpperCase tables call.1 call.2, tables).

(** Calls one after the other: their answers, and the [tables] in the
    end. *)
Fixpoint lookup_calls (toUpperCase : JsString → JsString)
    (tables : gmap JsString (gmap JsString (list Alternative)))
    (calls : list (JsString * JsString))
    : list (option (list Alternative))
      * gmap JsString (gmap JsString (list Alternative)) :=
  match calls with
  | [] => ([], tables)
  | call :: rest =>
      let '(answer, tables) := lookup_call toUpperCase tables call in
      let '(answers, tables) := lookup_calls toUpperCase tables rest in
      (answer :: answers, tables)
  end.

(** [toUpperCase] on strings of ASCII characters, to run examples. *)
Definition ascii_toUpperCase (s : JsString) : JsString :=
  map (λ c, if (97 <=? c) && (c <=? 122) then c - 32 else c) s.

End PostalCityMap.

(** ** A small service to run the definitions on *)

Module Examples.

Import Pip.

Definition feature (id : string) (hierarchy : list (list (string * string)))
    : FeatureRecord unit :=
  {| Id := id; Hierarchy := hierarchy; Properties := tt |}.

(** A locality with its region and country, an ancestor ("-1") that no
    record exists for, and an ocean without hierarchy. *)
Definition dataset : gmap string (FeatureRecord unit) :=
  list_to_map
    [ ("101", feature "101"
                [[ ("locality_id", "101"); ("county_id", "-1");
                   ("region_id", "201"); ("country_id", "301") ]]);
      ("201", feature "201" [[ ("region_id", "201"); ("country_id", "301") ]]);
      ("301", feature "301" [[ ("country_id", "301") ]]);
      ("X", feature "X" []) ].

Definition layers : list string :=
  createPIPService (Some ["country"; "locality"; "neighbourhood"; "street"]).

(** The service once it is created: no request yet. *)
Definition started : State Z unit := master (initial layers dataset).

Definition miss (id : N) : Msg := {| msg_id := id; msg_results := None |}.
Definition hit (id : N) (matched : string) : Msg :=
  {| msg_id := id; msg_results := Some matched |}.

(** The state after a list of events ([started] after an exception). *)
Definition state_after (events : list (Event Z)) : State Z unit :=
  default started (run layers started events).2.

(** One lookup over all layers of the service is under way. *)
Definition one_pending : State Z unit :=
  state_after [LookupCall 40%Z (-74)%Z None 7%nat].

(** Two lookups are under way. *)
Definition two_pending : State Z unit :=
  state_after [LookupCall 40%Z (-74)%Z None 7%nat;
               LookupCall 41%Z (-73)%Z (Some ["country"]) 8%nat].

(** [two_pending] after the first request was answered by a hit and a
    third lookup came in. *)
Definition one_answered : State Z unit :=
  default started
    (run layers
       (set_responseQueue (delete 0 (responseQueue two_pending)) two_pending)
       [ResultsMsg (miss 0); LookupCall 42%Z (-72)%Z None 9%nat]).2.

(** The system after one lookup, and after the first worker missed. *)
Definition searching : System Z unit :=
  match lookup layers started 40%Z (-74)%Z None 7%nat with
  | Ok (s', acts) => after_lookup (initial layers dataset) s' acts
  | Throw _ => initial layers dataset
  end.

Definition searching_next : System Z unit :=
  match handleResults (master searching) (miss 0) with
  | Ok (s', acts) => after_results searching [] s' acts
  | Throw _ => searching
  end.

(** Two small postal tables. *)
Definition oakland : PostalCityMap.Alternative :=
  {| PostalCityMap.wofid := PostalCityMap.js "85921881";
     PostalCityMap.name := PostalCityMap.js "Oakland";
     PostalCityMap.abbr := None;
     PostalCityMap.placetype := Some (PostalCityMap.js "locality");
     PostalCityMap.weight := Some 9%Z |}.

Definition piedmont : PostalCityMap.Alternative :=
  {| PostalCityMap.wofid := PostalCityMap.js "85922179";
     PostalCityMap.name := PostalCityMap.js "Piedmont";
     PostalCityMap.abbr := None;
     PostalCityMap.placetype := Some (PostalCityMap.js "locality");
     PostalCityMap.weight := Some 2%Z |}.

Definition wellington : PostalCityMap.Alternative :=
  {| PostalCityMap.wofid := PostalCityMap.js "101914243";
     PostalCityMap.name := PostalCityMap.js "Wellington";
     PostalCityMap.abbr := Some (PostalCityMap.js "WLG");
     PostalCityMap.placetype := None;
     PostalCityMap.weight := Some 0%Z |}.

Definition tables
    : gmap (list N) (gmap (list N) (list PostalCityMap.Alternative)) :=
  list_to_map
    [ (PostalCityMap.js "USA",
       list_to_map [ (PostalCityMap.js "94610", [oakland; piedmont]) ]);
      (PostalCityMap.js "NZL",
       list_to_map [ (PostalCityMap.js "6011", [wellington]) ]) ].

End Examples.

(** ** src/pip/index.js: starting the workers *)

Module Startup.

Import Pip.

Section Loading.

Context {Num Meta : Type}.

(** The variables of the module when it is loaded (lines 17-22). *)
Definition module_loaded : State Num Meta :=
  {| requestCount := 0; workers := ∅; responseQueue := ∅; wofData := ∅ |}.

(** A [loaded] message of the worker that [startWorker] forked for [layer]
    (lines 110-119), followed by the callback that [createPIPService] gave
    to [startWorker] (lines 46-49). [data] is the object that [JSON.parse]
    reads from the file of the layer; [_.assign(wofData, data)] writes every
    property of [data] into [wofData], over what is there. *)
Definition startWorker_loaded (layer : string)
    (data : gmap string (FeatureRecord Meta)) (s : State Num Meta)
    : State Num Meta :=
  {| requestCount := requestCount s;
     workers := {[ layer ]} ∪ workers s;
     responseQueue := responseQueue s;
     wofData := data ∪ wofData s |}.

(** The workers are started together ([async.forEach]) and report in any
    order: the state after the [loaded] messages [arrivals], each with the
    layer of its worker and its data, the first to arrive first. The
    service is handed to the caller once every worker has reported. *)
Definition loading (arrivals : list (string * gmap string (FeatureRecord Meta)))
    (s : State Num Meta) : State Num Meta :=
  foldl (λ s '(layer, data), startWorker_loaded layer data s) s arrivals.

End Loading.

End Startup.

(** ** src/postalCityMap.js: loading the tables *)

Module PostalCityLoad.

Import PostalCityMap.

(** The weight column of a line: its text, or the number that [parse] puts
    in its place. *)
Inductive Weight :=
| WeightText (text : JsString)
| WeightNumber (n : Z).

(** A record that the TSV parser makes of one line, with the columns of
    [tsvOptions]; a column that the line does not have is [undefined]. *)
Record Line := {
  line_postalcode : option JsString;
  line_wofid : option JsString;
  line_name : option JsString;
  line_abbr : option JsString;
  line_placetype : option JsString;
  line_weight : option Weight
}.

(** [Number.MAX_SAFE_INTEGER]. *)
Definition MAX_SAFE_INTEGER : Z := 2 ^ 53 - 1.

(** Whether a value is truthy: not [undefined], not the empty string, not
    the number 0. *)
Definition truthy_text (c : option JsString) : bool :=
  match c with
  | None | Some [] => false
  | Some (_ :: _) => true
  end.

Definition truthy_weight (w : option Weight) : bool :=
  match w with
  | None => false
  | Some (WeightText text) => truthy_text (Some text)
  | Some (WeightNumber n) => negb (n =? 0)%Z
  end.

(** A line that has its three mandatory columns, none of them empty. *)
Definition is_complete (line : Line) : bool :=
  truthy_text (line_postalcode line)
  && truthy_text (line_wofid line)
  && truthy_text (line_name line).

(** The test of [parse] (lines 110-117), from left to right: reading the
    length of a column that is [undefined] is a [TypeError]; a line with an
    empty mandatory column is rejected (and written to the console). *)
Definition has_mandatory_columns (line : Line) : Pip.Outcome bool :=
  match line_postalcode line with
  | None => Pip.Throw Pip.TypeError
  | Some [] => Pip.Ok false
  | Some (_ :: _) =>
      match line_wofid line with
      | None => Pip.Throw Pip.TypeError
      | Some [] => Pip.Ok false
      | Some (_ :: _) =>
          match line_name line with
          | None => Pip.Throw Pip.TypeError
          | Some [] => Pip.Ok false
          | Some (_ :: _) => Pip.Ok true
          end
      end
  end.

(** [lines.filter(...)] with a test that may throw. *)
Fixpoint filter_lines (lines : list Line) : Pip.Outcome (list Line) :=
  match lines with
  | [] => Pip.Ok []
  | line :: rest =>
      match has_mandatory_columns line with
      | Pip.Throw e => Pip.Throw e
      | Pip.Ok keep =>
          match filter_lines rest with
          | Pip.Throw e => Pip.Throw e
          | Pip.Ok kept => Pip.Ok (if keep then line :: kept else kept)
          end
      end
  end.

(** The function mapped by [parse] (lines 118-122). *)
Definition assign_default_weight (defaultWeight : option Z) (line : Line)
    : Line :=
  match defaultWeight with
  | Some n =>
      if negb (truthy_weight (line_weight line)) && negb (n =? 0)%Z
      then {| line_postalcode := line_postalcode line;
              line_wofid := line_wofid line;
              line_name := line_name line;
              line_abbr := line_abbr line;
              line_placetype := line_placetype line;
              line_weight := Some (WeightNumber n) |}
      else line
  | None => line
  end.

(** [parse] (lines 106-123), on the records [lines] of the file. *)
Definition parse (lines : list Line) (defaultWeight : option Z)
    : Pip.Outcome (list Line) :=
  match filter_lines lines with
  | Pip.Throw e => Pip.Throw e
  | Pip.Ok kept => Pip.Ok (map (assign_default_weight defaultWeight) kept)
  end.

(** [String.prototype.trim]: white space and line terminators are taken
    off both ends. *)
Fixpoint trimStart (s : JsString) : JsString :=
  match s with
  | [] => []
  | c :: rest => if is_white_space c then trimStart rest else s
  end.

Definition trim (s : JsString) : JsString :=
  reverse (trimStart (reverse (trimStart s))).

(** A row of a table is valid when it has a [wofid] and a [name] (lines
    89-93). *)
Definition is_valid (alternative : Alternative) : bool :=
  truthy_text (Some (wofid alternative))
  && truthy_text (Some (name alternative)).

(** [(a, b) => b.weight - a.weight]; a weight that is [NaN] makes the
    difference [NaN], here [None]. *)
Definition by_weight_desc (a b : Alternative) : option Z :=
  match weight a, weight b with
  | Some x, Some y => Some (y - x)%Z
  | _, _ => None
  end.

(** [stable(list, comparator)] of the package 'stable': a stable sort. With
    weights that are numbers the comparator is a total preorder and every
    stable sort returns the list computed here, by insertion: an element
    moves behind those that the comparator puts strictly before it. What
    the package does with a comparator that returns [NaN] is not modelled;
    the properties below that depend on the order assume weights that are
    numbers. *)
Fixpoint stable_insert (a : Alternative) (sorted : list Alternative)
    : list Alternative :=
  match sorted with
  | [] => [a]
  | b :: sorted' =>
      match by_weight_desc a b with
      | Some difference =>
          if (0 <? difference)%Z then b :: stable_insert a sorted'
          else a :: sorted
      | None => a :: sorted
      end
  end.

Definition stable (alternatives : list Alternative) : list Alternative :=
  foldr stable_insert [] alternatives.

(** [_.uniqBy(list, 'wofid')]: of the rows with the same [wofid] the first
    one stays. *)
Fixpoint uniqBy_wofid (seen : list JsString) (alternatives : list Alternative)
    : list Alternative :=
  match alternatives with
  | [] => []
  | a :: rest =>
      if bool_decide (wofid a ∈ seen) then uniqBy_wofid seen rest
      else a :: uniqBy_wofid (wofid a :: seen) rest
  end.

(** The weight of a row whose weight is a number, and the lists of rows
    whose weights are numbers: no [parseInt] gave [NaN]. *)
Definition weight_of (a : Alternative) : Z := default 0%Z (weight a).

Definition weights_are_numbers (l : list Alternative) : Prop :=
  Forall (λ a, is_Some (weight a)) l.

(** The post-processing of the rows of one postal code (lines 88-99). *)
Definition post_process (alternatives : list Alternative)
    : list Alternative :=
  uniqBy_wofid [] (stable (filter (λ a, is_valid a = true) alternatives)).

Section Load.

(** [String.prototype.toUpperCase] and [parseInt(value, 10)] are left to
    the JavaScript engine. The result of [parseInt] is [NaN], here [None],
    or a number that is an integer. *)
Variable toUpperCase : JsString → JsString.
Variable parseInt : Weight → option Z.

(** [row.abbr && row.abbr.length ? row.abbr.trim() : undefined]. *)
Definition optional_column (column : option JsString) : option JsString :=
  match column with
  | Some (c :: text) => Some (trim (c :: text))
  | _ => None
  end.

(** [row.weight ? parseInt(row.weight, 10) : 0]. *)
Definition row_weight (w : option Weight) : option Z :=
  match w with
  | Some value => if truthy_weight w then parseInt value else Some 0%Z
  | None => Some 0%Z
  end.

(** The object pushed for one row (lines 76-82). *)
Definition alternative_of (wofid_column name_column : JsString) (row : Line)
    : Alternative :=
  {| wofid := filter (λ c, is_white_space c = false) wofid_column;
     name := trim name_column;
     abbr := optional_column (line_abbr row);
     placetype := optional_column (line_placetype row);
     weight := row_weight (line_weight row) |}.

(** The body of [rows.forEach] (lines 73-83): the row goes to the end of
    the list of its normalized postal code. Calling a string method on a
    column that is [undefined] is a [TypeError]. *)
Definition add_row (m : gmap JsString (list Alternative)) (row : Line)
    : Pip.Outcome (gmap JsString (list Alternative)) :=
  match line_postalcode row, line_wofid row, line_name row with
  | Some postalcode, Some wofid_column, Some name_column =>
      let postalcode := normalizePostcode toUpperCase postalcode None in
      Pip.Ok (<[postalcode :=
                  default [] (m !! postalcode)
                  ++ [alternative_of wofid_column name_column row]]> m)
  | _, _, _ => Pip.Throw Pip.TypeError
  end.

Fixpoint add_rows (m : gmap JsString (list Alternative)) (rows : list Line)
    : Pip.Outcome (gmap JsString (list Alternative)) :=
  match rows with
  | [] => Pip.Ok m
  | row :: rest =>
      match add_row m row with
      | Pip.Throw e => Pip.Throw e
      | Pip.Ok m' => add_rows m' rest
      end
  end.

(** The rows that [add_row] files under one key, in the order of the
    rows. *)
Definition alternatives_for (key : JsString) (rows : list Line)
    : list Alternative :=
  omap (λ row,
          match line_postalcode row, line_wofid row, line_name row with
          | Some postalcode, Some wofid_column, Some name_column =>
              if bool_decide
                   (normalizePostcode toUpperCase postalcode None = key)
              then Some (alternative_of wofid_column name_column row)
              else None
          | _, _, _ => None
          end) rows.

(** The weight of every line is a number: no [parseInt] gives [NaN]. *)
Definition weights_parse (lines : list Line) : Prop :=
  Forall (λ line, is_Some (row_weight (line_weight line))) lines.

(** The rows of the two files of a country that [parse] keeps, those of
    the base file first. *)
Definition parsed_rows (base override : option (list Line)) : list Line :=
  map (assign_default_weight None)
    (filter (λ line, is_complete line = true) (default [] base))
  ++ map (assign_default_weight (Some MAX_SAFE_INTEGER))
       (filter (λ line, is_complete line = true) (default [] override)).

(** [loadTable] (lines 48-103). [base] and [override] are the records of
    the two files of the country, [None] for a file that does not exist. *)
Definition loadTable (base override : option (list Line))
    : Pip.Outcome (gmap JsString (list Alternative)) :=
  match match base with
        | Some lines => parse lines None
        | None => Pip.Ok []
        end with
  | Pip.Throw e => Pip.Throw e
  | Pip.Ok base_rows =>
      match match override with
            | Some lines => parse lines (Some MAX_SAFE_INTEGER)
            | None => Pip.Ok []
            end with
      | Pip.Throw e => Pip.Throw e
      | Pip.Ok override_rows =>
          match add_rows ∅ (base_rows ++ override_rows) with
          | Pip.Throw e => Pip.Throw e
          | Pip.Ok m => Pip.Ok (post_process <$> m)
          end
      end
  end.

(** The country codes of [tables] (lines 37-45). *)
Definition table_codes : list JsString :=
  [ js "ASM"; js "GUM"; js "MNP"; js "PRI"; js "USA"; js "VIR"; js "NZL" ].

(** [tables] (lines 37-45), for the files [files] of each country code. *)
Fixpoint load_tables
    (files : JsString → option (list Line) * option (list Line))
    (codes : list JsString)
    : Pip.Outcome (gmap JsString (gmap JsString (list Alternative))) :=
  match codes with
  | [] => Pip.Ok ∅
  | cc :: rest =>
      match loadTable (files cc).1 (files cc).2 with
      | Pip.Throw e => Pip.Throw e
      | Pip.Ok table =>
          match load_tables files rest with
          | Pip.Throw e => Pip.Throw e
          | Pip.Ok tables => Pip.Ok (<[cc := table]> tables)
          end
      end
  end.

End Load.

(** [parseInt(value, 10)] on the decimal numerals of ASCII digits and on
    numbers that are integers, to run examples. *)
Fixpoint digits_value (acc : Z) (text : JsString) : Z :=
  match text with
  | [] => acc
  | c :: rest =>
      if is_digit c then digits_value (10 * acc + Z.of_N (c - 48))%Z rest
      else acc
  end.

Definition decimal_parseInt (value : Weight) : option Z :=
  match value with
  | WeightNumber n => Some n
  | WeightText text =>
      let text := trimStart text in
      let '(negative, numeral) :=
        match text with
        | c :: rest =>
            if c =? 45 then (true, rest)
            else if c =? 43 then (false, rest)
            else (false, text)
        | [] => (false, [])
        end in
      match numeral with
      | d :: _ =>
          if is_digit d
          then Some (if negative : bool then - digits_value 0 numeral
                     else digits_value 0 numeral)%Z
          else None
      | [] => None
      end
  end.

End PostalCityLoad.

(** ** Small files and a small startup to run the definitions on *)

Module MoreExamples.

Import PostalCityMap PostalCityLoad.

Definition line (postalcode wofid_column name_column : string)
    (weight_column : option Weight) : Line :=
  {| line_postalcode := Some (js postalcode);
     line_wofid := Some (js wofid_column);
     line_name := Some (js name_column);
     line_abbr := None;
     line_placetype := Some (js "locality");
     line_weight := weight_column |}.

Definition weighing (text : string) : option Weight :=
  Some (WeightText (js text)).

(** Oakland twice, under two spellings of one postal code; a line without
    postal code; Piedmont in both files, without weight in the override
    file. *)
Definition usa_base : list Line :=
  [ line "94610" "85921881" "Oakland" (weighing "5");
    line "94610" "85922179" "Piedmont" (weighing "9");
    line "94 610" "85921881" "Oakland" (weighing "7");
    line "" "85922179" "Piedmont" None ].

Definition usa_override : list Line :=
  [ line "94610" "85922179" "Piedmont" None ].

Definition nzl_base : list Line :=
  [ line "6011" "101914243" "Wellington" None;
    line "wlg 6012" "101914243" "Wellington" (weighing "3") ].

Definition files (cc : list N) : option (list Line) * option (list Line) :=
  if bool_decide (cc = js "USA") then (Some usa_base, Some usa_override)
  else if bool_decide (cc = js "NZL") then (Some nzl_base, None)
  else (None, None).

Definition usa_table : gmap (list N) (list Alternative) :=
  match loadTable ascii_toUpperCase decimal_parseInt
          (Some usa_base) (Some usa_override) with
  | Pip.Ok table => table
  | Pip.Throw _ => ∅
  end.

Definition tables : gmap (list N) (gmap (list N) (list Alternative)) :=
  match load_tables ascii_toUpperCase decimal_parseInt files table_codes with
  | Pip.Ok tables => tables
  | Pip.Throw _ => ∅
  end.

(** What the workers of two layers hand over. *)
Definition locality_data : gmap string (Pip.FeatureRecord unit) :=
  list_to_map
    [ ("101", Examples.feature "101"
                [[ ("locality_id", "101"); ("country_id", "301") ]]) ].

Definition country_data : gmap string (Pip.FeatureRecord unit) :=
  list_to_map [ ("301", Examples.feature "301" [[ ("country_id", "301") ]]) ].

(** A stale copy of the locality in the data of the country worker. *)
Definition country_data_stale : gmap string (Pip.FeatureRecord unit) :=
  list_to_map
    [ ("301", Examples.feature "301" [[ ("country_id", "301") ]]);
      ("101", Examples.feature "101" []) ].

End MoreExamples.

(** * Properties *)

(** ** lodash *)

Section LodashFacts.

Import Lodash.

Lemma elem_of_baseIntersection seen xs ys x :
  x ∈ baseIntersection seen xs ys ↔ x ∈ xs ∧ x ∈ ys ∧ x ∉ seen.
Proof.
  revert seen. induction xs as [|y xs IH]; intros seen; simpl.
  - rewrite elem_of_nil. tauto.
  - destruct (decide (y ∉ seen)) as [Hseen|Hseen];
      destruct (decide (y ∈ ys)) as [Hys|Hys];
      rewrite ?(bool_decide_true _ Hseen), ?(bool_decide_false _ Hseen),
        ?(bool_decide_true _ Hys), ?(bool_decide_false _ Hys); simpl;
      rewrite ?elem_of_cons, IH, ?elem_of_cons.
    + destruct (decide (x = y)) as [->|Hne]; naive_solver.
    + naive_solver.
    + naive_solver.
    + naive_solver.
Qed.

Lemma baseIntersection_sublist seen xs ys :
  baseIntersection seen xs ys `sublist_of` xs.
Proof.
  revert seen. induction xs as [|y xs IH]; intros seen; simpl; [done|].
  destruct (_ && _); [by apply sublist_skip | by apply sublist_cons].
Qed.

Lemma baseIntersection_NoDup seen xs ys :
  NoDup (baseIntersection seen xs ys).
Proof.
  revert seen. induction xs as [|y xs IH]; intros seen; simpl.
  - constructor.
  - destruct (_ && _); [|done]. constructor; [|done].
    rewrite elem_of_baseIntersection. intros (_ & _ & Hy). apply Hy. by left.
Qed.

Lemma elem_of_intersection xs ys x :
  x ∈ intersection xs ys ↔ x ∈ xs ∧ x ∈ ys.
Proof.
  unfold intersection. rewrite elem_of_baseIntersection.
  split; [naive_solver|]. intros (? & ?). repeat split; [done..|].
  apply not_elem_of_nil.
Qed.

Lemma intersection_sublist xs ys : intersection xs ys `sublist_of` xs.
Proof. apply baseIntersection_sublist. Qed.

Lemma intersection_nil_r xs : intersection xs [] = [].
Proof.
  destruct (intersection xs []) as [|x l] eqn:E; [done|].
  assert (x ∈ intersection xs []) as Hx by (rewrite E; by left).
  apply elem_of_intersection in Hx as (_ & Hx). inversion Hx.
Qed.

(** Two sublists of a list without duplicates that have the same elements
    are the same list. *)
Lemma sublist_NoDup_ext (l1 l2 l : list string) :
  NoDup l → l1 `sublist_of` l → l2 `sublist_of` l →
  (∀ x, x ∈ l1 ↔ x ∈ l2) → l1 = l2.
Proof.
  intros Hnd. revert l1 l2.
  induction l as [|a l IH]; intros l1 l2 H1 H2 Heq.
  - apply sublist_nil_r in H1, H2. by subst.
  - apply NoDup_cons in Hnd as (Ha & Hnd).
    assert (∀ k, (k `sublist_of` a :: l) →
              (a ∈ k ∧ ∃ k', k = a :: k' ∧ (k' `sublist_of` l))
              ∨ ((a ∉ k) ∧ (k `sublist_of` l))) as Hcase.
    { intros k Hk. apply sublist_cons_r in Hk as [Hk|(k' & -> & Hk)].
      - right. split; [|done]. intros Hin. apply Ha.
        by eapply elem_of_sublist.
      - left. split; [by left|]. by exists k'. }
    destruct (Hcase _ H1) as [(Ha1 & k1 & -> & Hk1)|(Ha1 & Hk1)];
      destruct (Hcase _ H2) as [(Ha2 & k2 & -> & Hk2)|(Ha2 & Hk2)].
    + f_equal. apply IH; [done..|]. intros x.
      assert (a ∉ k1) by (intros ?; apply Ha; by eapply elem_of_sublist).
      assert (a ∉ k2) by (intros ?; apply Ha; by eapply elem_of_sublist).
      specialize (Heq x). rewrite !elem_of_cons in Heq.
      split; intros Hx; [destruct (proj1 Heq (or_intror Hx)) as [->|]
                        |destruct (proj2 Heq (or_intror Hx)) as [->|]];
        done.
    + exfalso. apply Ha2. apply Heq. by left.
    + exfalso. apply Ha1. apply Heq. by left.
    + by apply IH.
Qed.

Lemma intersection_filter xs ys :
  NoDup xs → intersection xs ys = filter (λ x, x ∈ ys) xs.
Proof.
  intros Hnd. apply (sublist_NoDup_ext _ _ xs); [done| | |].
  - apply intersection_sublist.
  - apply sublist_filter.
  - intros x. rewrite elem_of_intersection, list_elem_of_filter. tauto.
Qed.

End LodashFacts.

(** ** The master: what one call does *)

Section MasterSteps.

Import Lodash Pip.
Context {Num Meta : Type}.
Implicit Types (s : State Num Meta) (acts : list (Action Num Meta)).
Implicit Types (dataset : gmap string (FeatureRecord Meta)).

Lemma defaultLayers_NoDup : NoDup defaultLayers.
Proof. apply (bool_decide_unpack _). by vm_compute. Qed.

Lemma createPIPService_sublist created :
  createPIPService created `sublist_of` defaultLayers.
Proof. apply intersection_sublist. Qed.

Lemma lookup_search_layers_sublist layers requested :
  lookup_search_layers layers requested `sublist_of` layers.
Proof. destruct requested; simpl; [apply intersection_sublist | done]. Qed.

(** The code's [_.compact(_.values(hierarchy[0]).map(id => wofData[id]))]
    is the specification's resolution of the entries. *)
Lemma compact_values_resolve dataset (first : list (string * string)) :
  compact (map (λ id, dataset !! id) (values first))
  = resolve_entries dataset first.
Proof.
  unfold compact, values.
  induction first as [|[ty ident] first IH]; simpl; [done|].
  destruct (dataset !! ident); simpl; by rewrite <- IH.
Qed.

(** The ways [lookup] returns. *)
Lemma lookup_Ok layers s lat lon requested cb s' acts :
  lookup layers s lat lon requested cb = Ok (s', acts) →
  requestCount s' = increment (requestCount s)
  ∧ workers s' = workers s ∧ wofData s' = wofData s
  ∧ ((responseQueue s' = responseQueue s ∧ sent acts = [])
     ∨ ∃ first rest,
         lookup_search_layers layers requested = first :: rest
         ∧ responseQueue s !! requestCount s = None
         ∧ first ∈ workers s
         ∧ responseQueue s'
           = <[requestCount s :=
                 {| results := [];
                    latLon := {| latitude := lat; longitude := lon |};
                    search_layers := rest;
                    responseCallback := cb |}]> (responseQueue s)
         ∧ acts = [Send first (requestCount s)
                     {| latitude := lat; longitude := lon |}]).
Proof.
  unfold lookup.
  destruct (lookup_search_layers layers requested) as [|first rest] eqn:E;
    simpl.
  { intros [= <- <-]. simpl. tauto. }
  case_bool_decide as Hq; simpl in Hq.
  { intros [= <- <-]. simpl. tauto. }
  unfold searchWorker. simpl.
  case_bool_decide as Hw; [|done].
  intros [= <- <-]. simpl. repeat split; [].
  right. exists first, rest. repeat split; try done.
  by apply eq_None_not_Some.
Qed.

(** The ways [handleResults] returns. *)
Lemma handleResults_Ok s msg s' acts :
  handleResults s msg = Ok (s', acts) →
  (responseQueue s !! msg_id msg = None
   ∧ s' = s ∧ acts = [LogError (MissingId (msg_id msg))])
  ∨ (∃ req next rest,
       responseQueue s !! msg_id msg = Some req
       ∧ msg_results msg = None
       ∧ search_layers req = next :: rest
       ∧ next ∈ workers s
       ∧ s' = set_responseQueue
                (<[msg_id msg := set_search_layers rest req]>
                   (responseQueue s)) s
       ∧ acts = [Send next (msg_id msg) (latLon req)])
  ∨ (∃ req,
       responseQueue s !! msg_id msg = Some req
       ∧ msg_results msg = None
       ∧ search_layers req = []
       ∧ s' = s ∧ acts = [Respond (responseCallback req) None []])
  ∨ (∃ req matched record,
       responseQueue s !! msg_id msg = Some req
       ∧ msg_results msg = Some matched
       ∧ wofData s !! matched = Some record
       ∧ s' = set_responseQueue (delete (msg_id msg) (responseQueue s)) s
       ∧ acts = [Respond (responseCallback req) None
                   (HierarchyAssembler_resolve (wofData s) record)]).
Proof.
  unfold handleResults.
  destruct (responseQueue s !! msg_id msg) as [req|] eqn:Hreq.
  2:{ intros [= <- <-]. by left. }
  destruct (msg_results msg) as [matched|] eqn:Hres.
  - destruct (wofData s !! matched) as [record|] eqn:Hrec; [|done].
    intros [= <- <-]. do 3 right. exists req, matched, record.
    repeat split; try done. do 2 f_equal.
    unfold HierarchyAssembler_resolve.
    destruct (Hierarchy record); [done|]. apply compact_values_resolve.
  - destruct (search_layers req) as [|next rest] eqn:Hq; simpl.
    + intros [= <- <-]. do 2 right. left. by exists req.
    + unfold searchWorker. simpl. case_bool_decide as Hw; [|done].
      intros [= <- <-]. right. left. by exists req, next, rest.
Qed.

End MasterSteps.

(** ** The layers of a service and of a lookup *)

Section EffectiveLayers.

Import Lodash Pip.

(** C3, as the code has it. A service is created with the requested layers
    that are canonical, in canonical order, and with all canonical layers
    when the request is absent or empty. A lookup searches the layers of
    its service that it requests, in the same order; it searches all layers
    of the service when it passes no list, and none when it passes the
    empty list. *)
Theorem effective_layers_in_canonical_order
    (created requested : option (list string)) :
  let layers := createPIPService created in
  let searched := lookup_search_layers layers requested in
  layers `sublist_of` defaultLayers
  ∧ (∀ l, l ∈ layers ↔
          l ∈ defaultLayers
          ∧ (isEmpty created = true ∨ l ∈ default [] created))
  ∧ (isEmpty created = true → layers = defaultLayers)
  ∧ searched `sublist_of` defaultLayers
  ∧ (∀ l, l ∈ searched ↔
          l ∈ layers ∧ (requested = None ∨ l ∈ default [] requested))
  ∧ (requested = None → searched = layers)
  ∧ (requested = Some [] → searched = [])
  ∧ createPIPService (Some ["country"; "neighbourhood"])
    = ["neighbourhood"; "country"].
Proof.
  intros layers searched.
  assert (layers `sublist_of` defaultLayers) as Hl
    by apply createPIPService_sublist.
  assert (searched `sublist_of` layers) as Hs
    by apply lookup_search_layers_sublist.
  split; [done|]. split.
  { intros l. unfold layers, createPIPService.
    rewrite elem_of_intersection.
    destruct (isEmpty created); [|naive_solver].
    split; [naive_solver|]. by intros (? & _). }
  split.
  { intros Hempty. unfold layers, createPIPService. rewrite Hempty.
    rewrite intersection_filter by apply defaultLayers_NoDup.
    by vm_compute. }
  split; [by etrans|]. split.
  { intros l. unfold searched, lookup_search_layers.
    destruct requested as [sl|]; simpl.
    - rewrite elem_of_intersection. naive_solver.
    - naive_solver. }
  split; [by intros ->|]. split; [|by vm_compute].
  intros ->. apply intersection_nil_r.
Qed.

(** C3, as stated, fails for [lookup]: even when the service has every
    canonical layer, a lookup that passes the empty list searches no layer
    instead of all of them. *)
Lemma lookup_empty_list_is_not_all_layers :
  lookup_search_layers (createPIPService (Some [])) (Some []) = []
  ∧ createPIPService (Some []) = defaultLayers
  ∧ lookup_search_layers (createPIPService (Some [])) (Some [])
    ≠ createPIPService (Some [])
  ∧ lookup_search_layers (createPIPService (Some ["country"]))
      (Some ["neighbourhood"; "country"])
    ≠ createPIPService (Some ["neighbourhood"; "country"]).
Proof. by vm_compute. Qed.

End EffectiveLayers.

(** ** One call of [lookup] or [handleResults] *)

Section Calls.

Import Lodash Pip.
Context {Num Meta : Type}.
Implicit Types (s : State Num Meta) (req : Request Num Meta).

(** C2. A lookup that has no layer to search answers its callback at once
    with the empty list and no error, and sends nothing to any worker. *)
Theorem empty_layer_set_answers_at_once
    layers s (lat lon : Num) requested cb :
  lookup_search_layers layers requested = [] →
  ∃ s' acts,
    lookup layers s lat lon requested cb = Ok (s', acts)
    ∧ acts = [Respond cb None []]
    ∧ sent acts = []
    ∧ responseQueue s' = responseQueue s
    ∧ wofData s' = wofData s.
Proof.
  intros Hempty. unfold lookup. rewrite Hempty. simpl.
  by eexists _, _.
Qed.

(** C7. A [results] message for an id that is not in [responseQueue] is
    logged and dropped: the handler returns, calls nothing, sends nothing
    and leaves the state as it was. *)
Theorem unknown_id_is_logged_and_dropped s msg :
  responseQueue s !! msg_id msg = None →
  handleResults s msg = Ok (s, [LogError (MissingId (msg_id msg))])
  ∧ responded [LogError (MissingId (msg_id msg)) : Action Num Meta] = []
  ∧ sent [LogError (MissingId (msg_id msg)) : Action Num Meta] = [].
Proof.
  intros Habsent. unfold handleResults. by rewrite Habsent.
Qed.

(** What a hit does, for a matched identifier that has a record. *)
Lemma handleResults_hit s id req matched record :
  responseQueue s !! id = Some req →
  wofData s !! matched = Some record →
  handleResults s {| msg_id := id; msg_results := Some matched |}
  = Ok (set_responseQueue (delete id (responseQueue s)) s,
        [Respond (responseCallback req) None
           (HierarchyAssembler_resolve (wofData s) record)]).
Proof.
  intros Hreq Hrec. unfold handleResults. simpl. rewrite Hreq, Hrec.
  do 3 f_equal. unfold HierarchyAssembler_resolve.
  destruct (Hierarchy record); [done|]. by rewrite compact_values_resolve.
Qed.

Lemma elem_of_resolve_entries (dataset : gmap string (FeatureRecord Meta))
    entries record :
  record ∈ resolve_entries dataset entries ↔
  ∃ ty ident, (ty, ident) ∈ entries ∧ dataset !! ident = Some record.
Proof.
  induction entries as [|[ty ident] entries IH]; simpl.
  - rewrite elem_of_nil. split; [done|].
    intros (? & ? & H & _). inversion H.
  - destruct (dataset !! ident) as [r|] eqn:E;
      rewrite ?elem_of_cons, IH; split.
    + intros [->|(ty' & i' & Hin & Hr)].
      * exists ty, ident. split; [by left|done].
      * exists ty', i'. split; [by right|done].
    + intros (ty' & i' & Hin & Hr). apply elem_of_cons in Hin as [[= -> ->]|Hin].
      * left. congruence.
      * right. by exists ty', i'.
    + intros (ty' & i' & Hin & Hr). exists ty', i'. split; [by right|done].
    + intros (ty' & i' & Hin & Hr). apply elem_of_cons in Hin as [[= -> ->]|Hin].
      * congruence.
      * by exists ty', i'.
Qed.

(** C6. For a pending request and a matched identifier that has a record:
    the handler answers the request with the assembly of the
    specification. With a hierarchy, these are the records of the
    identifiers of the first mapping, in the order the mapping lists them,
    without those that have no record; without a hierarchy, it is the
    matched record alone. The answer is a function of the dataset and of
    the matched identifier only. *)
Theorem hit_answers_with_assembled_hierarchy s id req matched record :
  responseQueue s !! id = Some req →
  wofData s !! matched = Some record →
  ∃ answer,
    handleResults s {| msg_id := id; msg_results := Some matched |}
    = Ok (set_responseQueue (delete id (responseQueue s)) s,
          [Respond (responseCallback req) None answer])
    ∧ answer = HierarchyAssembler_resolve (wofData s) record
    ∧ (Hierarchy record = [] → answer = [record])
    ∧ (∀ first others, Hierarchy record = first :: others →
         answer = omap (λ entry, wofData s !! entry.2) first
         ∧ (∀ r, r ∈ answer ↔
                 ∃ ty ident, (ty, ident) ∈ first
                             ∧ wofData s !! ident = Some r)).
Proof.
  intros Hreq Hrec. eexists. split; [by apply handleResults_hit|].
  split; [done|]. unfold HierarchyAssembler_resolve. split.
  - by intros ->.
  - intros first others ->. split; [|apply elem_of_resolve_entries].
    clear. induction first as [|[ty ident] first IH]; simpl; [done|].
    destruct (wofData s !! ident); simpl; by rewrite IH.
Qed.

(** C10. A hit whose matched identifier has no record in [wofData] makes
    the handler throw: the request is not answered. *)
Theorem hit_without_record_throws s id req matched :
  responseQueue s !! id = Some req →
  wofData s !! matched = None →
  handleResults s {| msg_id := id; msg_results := Some matched |}
  = Throw TypeError.
Proof.
  intros Hreq Hrec. unfold handleResults. simpl. by rewrite Hreq, Hrec.
Qed.

(** What a miss does once the queue of the request is empty: it answers
    the empty list and leaves the request in [responseQueue]. *)
Lemma handleResults_exhausted s id req :
  responseQueue s !! id = Some req →
  search_layers req = [] →
  handleResults s {| msg_id := id; msg_results := None |}
  = Ok (s, [Respond (responseCallback req) None []]).
Proof.
  intros Hreq Hq. unfold handleResults. simpl. by rewrite Hreq, Hq.
Qed.

End Calls.

(** ** Runs: a request that was answered by a hit is never searched again *)

Section Runs.

Import Lodash Pip.
Context {Num Meta : Type}.
Implicit Types (s : State Num Meta) (events : list (Event Num)).

Lemma increment_ge n : n ≤ increment n.
Proof. unfold increment. destruct (n <? 2 ^ 53); lia. Qed.

Lemma sent_app (a b : list (Action Num Meta)) :
  sent (a ++ b) = sent a ++ sent b.
Proof. apply omap_app. Qed.

(** An id below the counter that has no entry gets none back, and no
    search is ever sent for it. *)
Lemma closed_id_is_never_searched layers events : ∀ s id,
  responseQueue s !! id = None →
  id < requestCount s →
  ∀ layer, (id, layer) ∉ sent (run layers s events).1.
Proof.
  induction events as [|e events IH]; intros s id Hnone Hlt layer; simpl.
  { apply not_elem_of_nil. }
  destruct (handle layers s e) as [[s' acts]|] eqn:He;
    [|apply not_elem_of_nil].
  specialize (IH s' id).
  destruct (run layers s' events) as [acts' final]. simpl in *.
  rewrite sent_app, elem_of_app.
  assert (responseQueue s' !! id = None ∧ id < requestCount s'
          ∧ (id, layer) ∉ sent acts) as (Hnone' & Hlt' & Hacts).
  { destruct e as [lat lon requested cb|msg]; simpl in He.
    - apply lookup_Ok in He as (Hcount & _ & _ & Hcase).
      pose proof (increment_ge (requestCount s)).
      split_and!; [|lia|].
      + destruct Hcase as [(-> & _)|(first & rest & _ & _ & _ & -> & _)];
          [done|]. rewrite lookup_insert_ne; [done|lia].
      + destruct Hcase as [(_ & ->)|(first & rest & _ & _ & _ & _ & ->)];
          [apply not_elem_of_nil|].
        simpl. rewrite list_elem_of_singleton. intros [= -> _]. lia.
    - apply handleResults_Ok in He
        as [(_ & -> & ->)
           |[(req & next & rest & Hreq & _ & _ & _ & -> & ->)
            |[(req & _ & _ & _ & -> & ->)
             |(req & matched & record & Hreq & _ & _ & -> & ->)]]];
        simpl.
      + split_and!; [done..|apply not_elem_of_nil].
      + assert (msg_id msg ≠ id) by congruence.
        split_and!; [by rewrite lookup_insert_ne|done|].
        rewrite list_elem_of_singleton. congruence.
      + split_and!; [done..|apply not_elem_of_nil].
      + split_and!; [|done|apply not_elem_of_nil].
        assert (msg_id msg ≠ id) by congruence.
        by rewrite lookup_delete_ne. }
  intros [Hin|Hin]; [done|]. by apply (IH Hnone' Hlt' layer).
Qed.

(** C5, as the code has it. After a hit for a pending request no search is
    sent for its id, whatever the hit is and whatever calls and messages
    follow. When the matched feature has a record in the dataset, the hit
    answers the request with the assembled hierarchy and removes it. The
    id is one the counter has passed: ids are handed out by the counter,
    and only the id 2^53, where the counter stops, can be handed out
    twice. *)
Theorem first_hit_wins layers s id req matched events :
  responseQueue s !! id = Some req →
  id < requestCount s →
  let msg := {| msg_id := id; msg_results := Some matched |} in
  (∀ layer,
     (id, layer) ∉ sent (run layers s (ResultsMsg msg :: events)).1)
  ∧ ∀ record,
      wofData s !! matched = Some record →
      handleResults s msg
      = Ok (set_responseQueue (delete id (responseQueue s)) s,
            [Respond (responseCallback req) None
               (HierarchyAssembler_resolve (wofData s) record)]).
Proof.
  intros Hreq Hlt msg. split.
  2:{ intros record Hrec. by apply handleResults_hit. }
  intros layer.
  change (run layers s (ResultsMsg msg :: events))
    with (match handleResults s msg with
          | Throw _ => ([], None)
          | Ok (s', acts) =>
              let '(acts', final) := run layers s' events in
              (acts ++ acts', final)
          end).
  destruct (wofData s !! matched) as [record|] eqn:Hrec.
  - unfold msg. rewrite (handleResults_hit s id req matched record Hreq Hrec).
    pose proof (closed_id_is_never_searched layers events
                  (set_responseQueue (delete id (responseQueue s)) s) id)
      as Hno.
    destruct (run layers _ events) as [acts' final]. simpl in *.
    apply Hno; [apply lookup_delete_eq|done].
  - unfold msg, handleResults. simpl. rewrite Hreq, Hrec. simpl.
    apply not_elem_of_nil.
Qed.

(** The dataset is frozen: no call and no message changes [wofData]. *)
Lemma run_keeps_wofData layers events : ∀ s acts s',
  run layers s events = (acts, Some s') → wofData s' = wofData s.
Proof.
  induction events as [|e events IH]; intros s acts s'; simpl.
  { by intros [= _ <-]. }
  destruct (handle layers s e) as [[s1 acts1]|] eqn:He; [|done].
  destruct (run layers s1 events) as [acts2 final] eqn:Hrun.
  intros [= _ ->]. rewrite (IH _ _ _ Hrun).
  destruct e as [lat lon requested cb|msg]; simpl in He.
  - by apply lookup_Ok in He as (_ & _ & -> & _).
  - apply handleResults_Ok in He
      as [(_ & -> & _)
         |[(req & next & rest & _ & _ & _ & _ & -> & _)
          |[(req & _ & _ & _ & -> & _)
           |(req & matched & record & _ & _ & _ & -> & _)]]]; done.
Qed.

(** C8. Once a hit on a feature has been answered, a hit on the same
    feature for any request that is pending at any later point of the run
    is answered with the same list, in the same order: the answer depends on
    the matched identifier and on the dataset only, and the dataset does not
    change. *)
Theorem assembly_is_idempotent
    layers s id req matched record events s' id' req' :
  responseQueue s !! id = Some req →
  wofData s !! matched = Some record →
  (run layers (set_responseQueue (delete id (responseQueue s)) s) events).2
    = Some s' →
  responseQueue s' !! id' = Some req' →
  ∃ answer,
    handleResults s {| msg_id := id; msg_results := Some matched |}
    = Ok (set_responseQueue (delete id (responseQueue s)) s,
          [Respond (responseCallback req) None answer])
    ∧ handleResults s' {| msg_id := id'; msg_results := Some matched |}
      = Ok (set_responseQueue (delete id' (responseQueue s')) s',
            [Respond (responseCallback req') None answer]).
Proof.
  intros Hreq Hrec Hrun Hreq'.
  exists (HierarchyAssembler_resolve (wofData s) record).
  split; [by apply handleResults_hit|].
  destruct (run layers _ events) as [acts final] eqn:Hrun'.
  simpl in Hrun. subst final.
  apply run_keeps_wofData in Hrun'. simpl in Hrun'.
  rewrite <- Hrun'. apply handleResults_hit; [done|]. by rewrite Hrun'.
Qed.

End Runs.

(** ** The master with its workers: the cascade is sequential *)

Section Cascade.

Import Lodash Pip.
Context {Num Meta : Type}.
Implicit Types (σ : System Num Meta) (s : State Num Meta).

Lemma cascade_invariant_initial layers wof :
  cascade_invariant (Num:=Num) (Meta:=Meta) layers (initial layers wof).
Proof.
  split_and!; simpl.
  - constructor.
  - intros id layer Hin. inversion Hin.
  - intros id req Hreq. by rewrite lookup_empty in Hreq.
Qed.

Lemma cascade_invariant_lookup layers σ lat lon requested cb s' acts :
  cascade_invariant layers σ →
  lookup layers (master σ) lat lon requested cb = Ok (s', acts) →
  cascade_invariant layers (after_lookup σ s' acts).
Proof.
  intros (Hnd & Hout & Hq) Hcall.
  pose proof (lookup_search_layers_sublist layers requested) as Hsub.
  apply lookup_Ok in Hcall as (_ & _ & _ & Hcase).
  destruct Hcase as [(Hsame & Hsent)
                    |(first & rest & Hsearched & Hfresh & _ & Hnew & ->)];
    unfold cascade_invariant, after_lookup; simpl.
  - rewrite Hsent, Hsame, app_nil_r. simpl. done.
  - rewrite Hnew. set (id0 := requestCount (master σ)) in *.
    assert (∀ layer, (id0, layer) ∉ outstanding σ) as Hid0.
    { intros layer Hin. apply Hout in Hin as ([? Hsome] & _). congruence. }
    split_and!.
    + rewrite fmap_app. simpl. apply NoDup_app. split_and!; [done| |].
      * intros id Hin Hin'. apply list_elem_of_singleton in Hin' as ->.
        apply list_elem_of_fmap in Hin as ([i layer] & -> & Hin).
        by apply (Hid0 layer).
      * apply NoDup_singleton.
    + intros id layer [Hin|Hin]%elem_of_app.
      * assert (id ≠ id0) by (intros ->; by apply (Hid0 layer)).
        rewrite !lookup_insert_ne by done. by apply Hout.
      * apply list_elem_of_singleton in Hin as [= -> ->].
        rewrite !lookup_insert_eq. split; [done|]. by exists [].
    + intros id req. destruct (decide (id = id0)) as [->|Hne].
      * rewrite !lookup_insert_eq. intros [= <-]. exists [first].
        split; [done|]. simpl. by rewrite <- Hsearched.
      * rewrite !lookup_insert_ne by done. apply Hq.
Qed.

Lemma cascade_invariant_results layers σ before id layer after reply s' acts :
  cascade_invariant layers σ →
  outstanding σ = before ++ (id, layer) :: after →
  handleResults (master σ) {| msg_id := id; msg_results := reply |}
    = Ok (s', acts) →
  cascade_invariant layers (after_results σ (before ++ after) s' acts).
Proof.
  intros (Hnd & Hout & Hq) Hsplit Hcall.
  rewrite Hsplit in Hnd, Hout.
  rewrite fmap_app, fmap_cons in Hnd. simpl in Hnd.
  apply NoDup_app in Hnd as (Hnd1 & Hcross & Hnd2).
  apply NoDup_cons in Hnd2 as (Hid2 & Hnd2).
  assert (NoDup (before ++ after).*1) as Hnd'.
  { rewrite fmap_app. apply NoDup_app. split_and!; [done| |done].
    intros i Hi Hi'. apply (Hcross i Hi). by right. }
  assert (∀ i l, (i, l) ∈ before ++ after →
                 i ≠ id ∧ (i, l) ∈ before ++ (id, layer) :: after) as Hrest.
  { intros i l [Hin|Hin]%elem_of_app.
    - split; [|apply elem_of_app; by left]. intros ->.
      apply (Hcross id); [|by left].
      apply list_elem_of_fmap. by exists (id, l).
    - split; [|apply elem_of_app; right; by right]. intros ->.
      apply Hid2. apply list_elem_of_fmap. by exists (id, l). }
  apply handleResults_Ok in Hcall
    as [(_ & -> & ->)
       |[(req & next & rest & Hreq & _ & Hqueue & _ & -> & ->)
        |[(req & _ & _ & _ & -> & ->)
         |(req & matched & record & Hreq & _ & _ & -> & ->)]]];
    unfold cascade_invariant, after_results; simpl in *.
  - rewrite app_nil_r. split_and!; [done| |done].
    intros i l Hin. apply Hout. by apply Hrest.
  - destruct (Hq _ _ Hreq) as (h & Hh & Hsub).
    split_and!.
    + rewrite fmap_app. simpl. apply NoDup_app. split_and!; [done| |].
      * intros i Hi Hi'. apply list_elem_of_singleton in Hi' as ->.
        apply list_elem_of_fmap in Hi as ([i l] & Heq & Hin).
        simpl in Heq. subst i.
        by apply Hrest in Hin as (Hne & _).
      * apply NoDup_singleton.
    + intros i l [Hin|Hin]%elem_of_app.
      * apply Hrest in Hin as (Hne & Hin).
        rewrite lookup_insert_ne, lookup_alter_ne by done. by apply Hout.
      * apply list_elem_of_singleton in Hin as [= -> ->].
        rewrite lookup_insert_eq, lookup_alter_eq, Hh. split; [done|].
        by exists h.
    + intros i r. destruct (decide (i = id)) as [->|Hne].
      * rewrite lookup_insert_eq, lookup_alter_eq, Hh. intros [= <-].
        exists (h ++ [next]). split; [done|]. simpl.
        rewrite <- app_assoc. simpl. by rewrite <- Hqueue.
      * rewrite lookup_insert_ne, lookup_alter_ne by done. apply Hq.
  - rewrite app_nil_r. split_and!; [done| |done].
    intros i l Hin. apply Hout. by apply Hrest.
  - rewrite app_nil_r. split_and!; [done| |].
    + intros i l Hin. apply Hrest in Hin as (Hne & Hin).
      rewrite lookup_delete_ne by done. by apply Hout.
    + intros i r. destruct (decide (i = id)) as [->|Hne].
      * by rewrite lookup_delete_eq.
      * rewrite lookup_delete_ne by done. apply Hq.
Qed.

Lemma cascade_invariant_reachable layers σ :
  reachable layers σ → cascade_invariant layers σ.
Proof.
  induction 1 as [wof|σ lat lon requested cb s' acts _ IH Hcall
                 |σ before id layer after reply s' acts _ IH Hsplit Hcall].
  - apply cascade_invariant_initial.
  - by eapply cascade_invariant_lookup.
  - by eapply cascade_invariant_results.
Qed.

(** The ids of the pending requests were handed out by the counter: they
    are below it, apart from 2^53, the value at which the counter stays. *)
Lemma pending_ids_come_from_the_counter layers σ :
  reachable layers σ →
  requestCount (master σ) ≤ 2 ^ 53
  ∧ ∀ id, is_Some (responseQueue (master σ) !! id) →
          id < requestCount (master σ) ∨ id = 2 ^ 53.
Proof.
  induction 1 as [wof|σ lat lon requested cb s' acts _ (Hle & IH) Hcall
                 |σ before id0 layer after reply s' acts _ (Hle & IH) _ Hcall];
    simpl.
  - split; [lia|]. intros id [? Hid]. by rewrite lookup_empty in Hid.
  - apply lookup_Ok in Hcall as (Hcount & _ & _ & Hcase).
    rewrite Hcount. unfold increment.
    destruct (N.ltb_spec (requestCount (master σ)) (2 ^ 53)) as [Hlt|Hge].
    + split; [lia|]. intros id Hid.
      destruct Hcase as [(Hsame & _)|(first & rest & _ & _ & _ & Hnew & _)].
      * rewrite Hsame in Hid. destruct (IH id Hid); [left; lia|by right].
      * rewrite Hnew in Hid.
        destruct (decide (id = requestCount (master σ))) as [->|Hne];
          [left; lia|].
        rewrite lookup_insert_ne in Hid by done.
        destruct (IH id Hid); [left; lia|by right].
    + split; [done|]. intros id Hid.
      destruct Hcase as [(Hsame & _)|(first & rest & _ & _ & _ & Hnew & _)].
      * rewrite Hsame in Hid. by apply IH.
      * rewrite Hnew in Hid.
        destruct (decide (id = requestCount (master σ))) as [->|Hne];
          [right; lia|].
        rewrite lookup_insert_ne in Hid by done. by apply IH.
  - apply handleResults_Ok in Hcall
      as [(_ & -> & _)
         |[(req & next & rest & Hreq & _ & _ & _ & -> & _)
          |[(req & _ & _ & _ & -> & _)
           |(req & matched & record & _ & _ & _ & -> & _)]]];
      simpl; (split; [done|]); try done; intros id Hid.
    + destruct (decide (id = id0)) as [->|Hne]; [by apply IH|].
      rewrite lookup_insert_ne in Hid by done. by apply IH.
    + destruct (decide (id = id0)) as [->|Hne].
      * rewrite lookup_delete_eq in Hid. by destruct Hid.
      * rewrite lookup_delete_ne in Hid by done. by apply IH.
Qed.

End Cascade.

Section CascadeClaim.

Import Lodash Pip.
Context {Num Meta : Type}.
Implicit Types (σ : System Num Meta) (s : State Num Meta).

(** C4. In every state the master and its workers can reach: no two
    outstanding searches have the same request id; an outstanding search
    is the last one that was sent for a pending request; the layers
    searched so far for a pending request, followed by its queue, are in
    canonical order without repetition, so the queue holds only layers
    coarser than every layer searched and no layer is searched twice.
    [handleResults] sends a search only when it handles a miss, for the id
    of that miss, to the first layer of the queue, which it takes out of
    the queue; [lookup] sends at most the search of the first layer and
    queues the others. *)
Theorem cascade_is_sequential created σ :
  reachable (createPIPService created) σ →
  NoDup (outstanding σ).*1
  ∧ (∀ id layer, (id, layer) ∈ outstanding σ →
       is_Some (responseQueue (master σ) !! id)
       ∧ ∃ h, dispatched σ !! id = Some (h ++ [layer]))
  ∧ (∀ id req, responseQueue (master σ) !! id = Some req →
       ∃ h, dispatched σ !! id = Some h
            ∧ (h ++ search_layers req) `sublist_of` defaultLayers
            ∧ NoDup (h ++ search_layers req))
  ∧ (∀ msg s' acts,
       handleResults (master σ) msg = Ok (s', acts) →
       sent acts = []
       ∨ ∃ req next rest,
           msg_results msg = None
           ∧ responseQueue (master σ) !! msg_id msg = Some req
           ∧ search_layers req = next :: rest
           ∧ responseQueue s' !! msg_id msg
             = Some (set_search_layers rest req)
           ∧ sent acts = [(msg_id msg, next)])
  ∧ (∀ lat lon requested cb s' acts,
       lookup (createPIPService created) (master σ) lat lon requested cb
         = Ok (s', acts) →
       sent acts = []
       ∨ ∃ first rest req,
           lookup_search_layers (createPIPService created) requested
             = first :: rest
           ∧ responseQueue s' !! requestCount (master σ) = Some req
           ∧ search_layers req = rest
           ∧ sent acts = [(requestCount (master σ), first)]).
Proof.
  intros Hreach.
  apply cascade_invariant_reachable in Hreach as (Hnd & Hout & Hq).
  split_and!; [done|done| | |].
  - intros id req Hreq. destruct (Hq id req Hreq) as (h & Hh & Hsub).
    exists h. split; [done|].
    assert ((h ++ search_layers req) `sublist_of` defaultLayers) as Hcanon.
    { etrans; [done|]. apply createPIPService_sublist. }
    split; [done|].
    exact (sublist_NoDup _ defaultLayers defaultLayers_NoDup Hcanon).
  - intros msg s' acts Hcall.
    apply handleResults_Ok in Hcall
      as [(_ & -> & ->)
         |[(req & next & rest & Hreq & Hmiss & Hqueue & _ & -> & ->)
          |[(req & _ & _ & _ & -> & ->)
           |(req & matched & record & _ & _ & _ & -> & ->)]]];
      [by left| |by left|by left].
    right. exists req, next, rest. split_and!; try done.
    simpl. by rewrite lookup_insert_eq.
  - intros lat lon requested cb s' acts Hcall.
    apply lookup_Ok in Hcall as (_ & _ & _ & Hcase).
    destruct Hcase as [(_ & ->)|(first & rest & Hs & _ & _ & Hnew & ->)];
      [by left|].
    right. rewrite Hnew, lookup_insert_eq.
    eexists first, rest, _. by split_and!.
Qed.

End CascadeClaim.

(** ** The request that runs out of layers *)

Section Exhaustion.

Import Pip Examples.

(** C1, on the code. A lookup of the one layer "country" is sent to its
    worker; the worker misses. The handler answers the empty list and the
    request stays in [responseQueue] with an empty queue: a second miss
    for the same id answers the callback a second time. *)
Theorem exhausted_request_stays_in_responseQueue :
  let events := [LookupCall 40%Z (-74)%Z (Some ["country"]) 7%nat;
                 ResultsMsg (miss 0)] in
  let coords := {| latitude := 40%Z; longitude := (-74)%Z |} in
  (run layers started events).1
  = [Send "country" 0 coords; Respond 7%nat None []]
  ∧ responseQueue (state_after events) !! 0
    = Some {| results := []; latLon := coords; search_layers := [];
              responseCallback := 7%nat |}
  ∧ (run layers started (events ++ [ResultsMsg (miss 0)])).1
    = [Send "country" 0 coords; Respond 7%nat None [];
       Respond 7%nat None []].
Proof. by vm_compute. Qed.

End Exhaustion.

(** ** The postal city table *)

Section PostalCity.

Import PostalCityMap.
Variable toUpperCase : JsString → JsString.
Variable tables : gmap JsString (gmap JsString (list Alternative)).

Lemma match_five_digits_Some postcode digits :
  match_five_digits postcode = Some digits →
  length digits = 5%nat ∧ forallb is_digit digits = true.
Proof.
  induction postcode as [|c rest IH]; [done|].
  unfold match_five_digits; fold match_five_digits.
  destruct (_ && _) eqn:E; [|done].
  intros [= <-]. apply andb_true_iff in E as (Hlen & Hdigits).
  by apply Nat.eqb_eq in Hlen.
Qed.

(** For a country of the 'zip' system the key is made of digits, five at
    most. *)
Lemma normalizePostcode_zip postcode isocode :
  isocode ∈ USA_ISO_CODES →
  let key := normalizePostcode toUpperCase postcode (Some isocode) in
  (length key ≤ 5)%nat ∧ forallb is_digit key = true.
Proof.
  intros Hzip key. unfold key, normalizePostcode.
  rewrite bool_decide_true by (apply list_elem_of_fmap; by exists isocode).
  destruct (match_five_digits postcode) as [digits|] eqn:E.
  - apply match_five_digits_Some in E as (-> & ->). done.
  - split; [rewrite length_take; lia|].
    apply forallb_forall. intros c Hc%list_elem_of_In.
    apply elem_of_take in Hc as (i & Hc & _).
    apply list_elem_of_lookup_2 in Hc.
    by apply list_elem_of_filter in Hc as (Hc & _).
Qed.

(** [lookup] reads the table of the country at the normalized postal
    code. *)
Lemma lookup_by_key isocode postalcode :
  let key := normalizePostcode toUpperCase postalcode (Some isocode) in
  let answer := lookup toUpperCase tables isocode postalcode in
  (tables !! isocode = None → answer = None)
  ∧ (∀ table, tables !! isocode = Some table → answer = table !! key)
  ∧ (answer = None ↔
     tables !! isocode = None
     ∨ ∃ table, tables !! isocode = Some table ∧ table !! key = None)
  ∧ (∀ alternatives, answer = Some alternatives ↔
       ∃ table, tables !! isocode = Some table
                ∧ table !! key = Some alternatives).
Proof.
  intros key answer. unfold answer, lookup. fold key.
  destruct (tables !! isocode) as [table|] eqn:Ht.
  - destruct (table !! key) as [alternatives|] eqn:Hk.
    + split_and!; [done| | |].
      * by intros ? [= <-].
      * split; [done|]. intros [?|(t & [= <-] & ?)]; congruence.
      * intros alts. split.
        -- intros [= <-]. by exists table.
        -- intros (t & [= <-] & ?). congruence.
    + split_and!; [done| | |].
      * by intros ? [= <-].
      * split; [|done]. intros _. right. by exists table.
      * intros alts. split; [done|]. intros (t & [= <-] & ?). congruence.
  - split_and!; [done|done| |].
    + split; [by left|done].
    + intros alts. split; [done|]. by intros (t & ? & _).
Qed.

Lemma five_digits_at_start postcode :
  (length (take 5 postcode) =? 5)%nat && forallb is_digit (take 5 postcode)
    = true
  ↔ five_digits_at 0 postcode.
Proof.
  unfold five_digits_at. rewrite drop_0, andb_true_iff, Nat.eqb_eq. done.
Qed.

(** [match_five_digits] finds the leftmost five digits in a row. *)
Lemma match_five_digits_leftmost before digits after :
  length digits = 5%nat →
  forallb is_digit digits = true →
  (∀ i, (i < length before)%nat →
        ¬ five_digits_at i (before ++ digits ++ after)) →
  match_five_digits (before ++ digits ++ after) = Some digits.
Proof.
  intros Hlen Hdigits. induction before as [|c before IH]; intros Hleft.
  - simpl. destruct digits as [|d digits]; [done|].
    change ((d :: digits) ++ after) with (d :: (digits ++ after)).
    unfold match_five_digits; fold match_five_digits.
    change (d :: (digits ++ after)) with ((d :: digits) ++ after).
    rewrite take_app_length' by done. by rewrite Hlen, Hdigits.
  - change ((c :: before) ++ digits ++ after)
      with (c :: (before ++ digits ++ after)) in *.
    unfold match_five_digits; fold match_five_digits.
    destruct (_ && _) eqn:Hhere.
    + apply five_digits_at_start in Hhere.
      destruct (Hleft 0%nat); [simpl; lia|done].
    + apply IH. intros i Hi Hat. apply (Hleft (S i)); [simpl; lia|done].
Qed.

(** Without five digits in a row [match_five_digits] finds nothing. *)
Lemma match_five_digits_nowhere postcode :
  (∀ i, ¬ five_digits_at i postcode) → match_five_digits postcode = None.
Proof.
  induction postcode as [|c rest IH]; intros Hnone; [done|].
  unfold match_five_digits; fold match_five_digits.
  destruct (_ && _) eqn:Hhere.
  - apply five_digits_at_start in Hhere. by destruct (Hnone 0%nat).
  - apply IH. intros i Hat. by apply (Hnone (S i)).
Qed.

Lemma lookup_calls_read_only calls :
  lookup_calls toUpperCase tables calls
  = (map (λ call, lookup toUpperCase tables call.1 call.2) calls, tables).
Proof.
  induction calls as [|call calls IH]; simpl; [done|]. by rewrite IH.
Qed.

(** C9. [lookup] answers [null] when the country has no table and when the
    normalized postal code is not a key of the table of the country;
    otherwise it answers the list the table holds for that key, in the
    order of the table. The normalized postal code is, for a country of
    the 'zip' system, the leftmost five digits in a row of the postal code
    and, when there are none, the first five of the digits that stand
    before the hyphen which [/-.*$/] cuts at; for any other country it is
    the postal code in upper case without white space. No call writes
    [tables]: after any calls the tables are what they were, and every
    call is answered from them. *)
Theorem postal_lookup_reads_the_table isocode postalcode :
  let key := normalizePostcode toUpperCase postalcode (Some isocode) in
  let answer := lookup toUpperCase tables isocode postalcode in
  (tables !! isocode = None → answer = None)
  ∧ (∀ table, tables !! isocode = Some table → answer = table !! key)
  ∧ (answer = None ↔
     tables !! isocode = None
     ∨ ∃ table, tables !! isocode = Some table ∧ table !! key = None)
  ∧ (∀ alternatives, answer = Some alternatives ↔
       ∃ table, tables !! isocode = Some table
                ∧ table !! key = Some alternatives)
  ∧ (isocode ∉ USA_ISO_CODES →
     key = filter (λ c, is_white_space c = false) (toUpperCase postalcode))
  ∧ (isocode ∈ USA_ISO_CODES →
     ∀ before digits after,
       postalcode = before ++ digits ++ after →
       length digits = 5%nat →
       forallb is_digit digits = true →
       (∀ i, (i < length before)%nat → ¬ five_digits_at i postalcode) →
       key = digits)
  ∧ (isocode ∈ USA_ISO_CODES →
     (∀ i, ¬ five_digits_at i postalcode) →
     key = take 5 (filter (λ c, is_digit c = true)
                     (remove_hyphen_to_end postalcode)))
  ∧ (∀ calls,
       lookup_calls toUpperCase tables calls
       = (map (λ call, lookup toUpperCase tables call.1 call.2) calls,
          tables)).
Proof.
  intros key answer.
  destruct (lookup_by_key isocode postalcode) as (H1 & H2 & H3 & H4).
  split_and!; [exact H1|exact H2|exact H3|exact H4| | | |].
  - intros Hzip. unfold key, normalizePostcode.
    rewrite bool_decide_false; [done|].
    intros (c & [= ->] & ?)%list_elem_of_fmap. done.
  - intros Hzip before digits after -> Hlen Hdigits Hleft.
    unfold key, normalizePostcode.
    rewrite bool_decide_true by (apply list_elem_of_fmap; by exists isocode).
    by rewrite match_five_digits_leftmost.
  - intros Hzip Hnone. unfold key, normalizePostcode.
    rewrite bool_decide_true by (apply list_elem_of_fmap; by exists isocode).
    by rewrite match_five_digits_nowhere.
  - apply lookup_calls_read_only.
Qed.

End PostalCity.

Section PostalCityExamples.

Import PostalCityMap.

Example normalize_zip_plus_four :
  normalizePostcode ascii_toUpperCase (js "CA 94610-2737") (Some (js "USA"))
  = js "94610".
Proof. reflexivity. Qed.

Example normalize_zip_fallback :
  normalizePostcode ascii_toUpperCase (js "9 4 6 1 0 2-2737")
    (Some (js "USA"))
  = js "94610".
Proof. reflexivity. Qed.

Example normalize_elsewhere :
  normalizePostcode ascii_toUpperCase (js "sw1a 1aa") (Some (js "GBR"))
  = js "SW1A1AA".
Proof. reflexivity. Qed.

Example lookup_oakland :
  lookup ascii_toUpperCase Examples.tables (js "USA") (js "CA 94610-2737")
  = Some [Examples.oakland; Examples.piedmont].
Proof. by vm_compute. Qed.

Example lookup_unknown_country :
  lookup ascii_toUpperCase Examples.tables (js "FRA") (js "75001") = None.
Proof. by vm_compute. Qed.

Example lookup_unknown_code :
  lookup ascii_toUpperCase Examples.tables (js "NZL") (js "9999") = None.
Proof. by vm_compute. Qed.

End PostalCityExamples.

(** ** The theorems on the example service *)

Section OnTheExampleService.

Import Pip Examples.

(** The example of the specification: neighbourhood and locality miss,
    country hits "X", which has no hierarchy. *)
Example cascade_to_country :
  responded
    (run layers started
       [LookupCall 40%Z (-74)%Z None 7%nat;
        ResultsMsg (miss 0); ResultsMsg (miss 0); ResultsMsg (hit 0 "X")]).1
  = [(7%nat, [feature "X" []])]
  ∧ (sent
       (run layers started
          [LookupCall 40%Z (-74)%Z None 7%nat;
           ResultsMsg (miss 0); ResultsMsg (miss 0);
           ResultsMsg (hit 0 "X")]).1).*2
    = ["neighbourhood"; "locality"; "country"].
Proof. by vm_compute. Qed.

(** A lookup that only asks for a layer the service does not have. *)
Lemma empty_layer_set_answers_at_once_witness :
  ∃ s' acts,
    lookup layers started 40%Z (-74)%Z (Some ["street"]) 7%nat
      = Ok (s', acts)
    ∧ acts = [Respond 7%nat None []]
    ∧ sent acts = []
    ∧ responseQueue s' = responseQueue started
    ∧ wofData s' = wofData started.
Proof.
  apply (empty_layer_set_answers_at_once layers started 40%Z (-74)%Z
           (Some ["street"]) 7%nat).
  vm_compute. reflexivity.
Defined.

Lemma unknown_id_is_logged_and_dropped_witness :
  handleResults one_pending (miss 5)
  = Ok (one_pending, [LogError (MissingId 5)]).
Proof.
  apply (unknown_id_is_logged_and_dropped one_pending (miss 5)).
  vm_compute. reflexivity.
Defined.

Lemma hit_answers_with_assembled_hierarchy_witness :
  ∃ answer,
    handleResults one_pending (hit 0 "101")
    = Ok (set_responseQueue (delete 0 (responseQueue one_pending))
            one_pending,
          [Respond 7%nat None answer])
    ∧ answer
      = [ feature "101"
            [[ ("locality_id", "101"); ("county_id", "-1");
               ("region_id", "201"); ("country_id", "301") ]];
          feature "201" [[ ("region_id", "201"); ("country_id", "301") ]];
          feature "301" [[ ("country_id", "301") ]] ].
Proof.
  destruct (hit_answers_with_assembled_hierarchy one_pending 0
              {| results := [];
                 latLon := {| latitude := 40%Z; longitude := (-74)%Z |};
                 search_layers := ["locality"; "country"];
                 responseCallback := 7%nat |}
              "101"
              (feature "101"
                 [[ ("locality_id", "101"); ("county_id", "-1");
                    ("region_id", "201"); ("country_id", "301") ]]))
    as (answer & Hcall & Hanswer & _).
  - vm_compute. reflexivity.
  - vm_compute. reflexivity.
  - exists answer. split; [exact Hcall|].
    rewrite Hanswer. vm_compute. reflexivity.
Defined.

Lemma hit_without_record_throws_witness :
  handleResults one_pending (hit 0 "404") = Throw TypeError.
Proof.
  apply (hit_without_record_throws one_pending 0
           {| results := [];
              latLon := {| latitude := 40%Z; longitude := (-74)%Z |};
              search_layers := ["locality"; "country"];
              responseCallback := 7%nat |} "404").
  - vm_compute. reflexivity.
  - vm_compute. reflexivity.
Defined.

Lemma assembly_is_idempotent_witness :
  ∃ answer,
    handleResults two_pending (hit 0 "201")
    = Ok (set_responseQueue (delete 0 (responseQueue two_pending))
            two_pending,
          [Respond 7%nat None answer])
    ∧ handleResults one_answered (hit 2 "201")
      = Ok (set_responseQueue (delete 2 (responseQueue one_answered))
              one_answered,
            [Respond 9%nat None answer]).
Proof.
  apply (assembly_is_idempotent layers two_pending 0
           {| results := [];
              latLon := {| latitude := 40%Z; longitude := (-74)%Z |};
              search_layers := ["locality"; "country"];
              responseCallback := 7%nat |}
           "201"
           (feature "201" [[ ("region_id", "201"); ("country_id", "301") ]])
           [ResultsMsg (miss 0); LookupCall 42%Z (-72)%Z None 9%nat]
           one_answered 2
           {| results := [];
              latLon := {| latitude := 42%Z; longitude := (-72)%Z |};
              search_layers := ["locality"; "country"];
              responseCallback := 9%nat |}).
  - vm_compute. reflexivity.
  - vm_compute. reflexivity.
  - vm_compute. reflexivity.
  - vm_compute. reflexivity.
Defined.

Lemma first_hit_wins_witness :
  (∀ layer,
     (0, layer) ∉
       sent (run layers one_pending
               [ResultsMsg (hit 0 "101"); ResultsMsg (miss 0);
                LookupCall 41%Z (-73)%Z None 8%nat; ResultsMsg (miss 0)]).1)
  ∧ ∀ record,
      wofData one_pending !! "101" = Some record →
      handleResults one_pending (hit 0 "101")
      = Ok (set_responseQueue (delete 0 (responseQueue one_pending))
              one_pending,
            [Respond 7%nat None
               (HierarchyAssembler_resolve (wofData one_pending) record)]).
Proof.
  apply (first_hit_wins layers one_pending 0
           {| results := [];
              latLon := {| latitude := 40%Z; longitude := (-74)%Z |};
              search_layers := ["locality"; "country"];
              responseCallback := 7%nat |}
           "101"
           [ResultsMsg (miss 0); LookupCall 41%Z (-73)%Z None 8%nat;
            ResultsMsg (miss 0)]).
  - vm_compute. reflexivity.
  - vm_compute. reflexivity.
Defined.

(** C5, as stated, fails on a hit whose matched feature has no record: the
    lookup of "country" is searched, the worker answers the feature "404",
    and the run ends on the exception of the handler with the callback
    never called. The request stays unanswered. *)
Lemma hit_on_a_feature_without_record_is_not_answered :
  run layers started
    [LookupCall 40%Z (-74)%Z (Some ["country"]) 7%nat;
     ResultsMsg (hit 0 "404")]
  = ([Send "country" 0 {| latitude := 40%Z; longitude := (-74)%Z |}], None)
  ∧ responded
      (run layers started
         [LookupCall 40%Z (-74)%Z (Some ["country"]) 7%nat;
          ResultsMsg (hit 0 "404")]).1 = [].
Proof. by vm_compute. Qed.

Lemma searching_next_reachable : reachable layers searching_next.
Proof.
  unfold searching_next.
  assert (reachable layers searching) as Hreach.
  { unfold searching.
    destruct (lookup layers started 40%Z (-74)%Z None 7%nat)
      as [[s' acts]|] eqn:Hcall.
    - exact (reachable_lookup layers (initial layers dataset)
               40%Z (-74)%Z None 7%nat s' acts
               (reachable_initial layers dataset) Hcall).
    - apply reachable_initial. }
  destruct (handleResults (master searching) (miss 0))
    as [[s' acts]|] eqn:Hcall; [|done].
  apply (reachable_results layers searching [] 0 "neighbourhood" []
           None s' acts Hreach); [|done].
  vm_compute. reflexivity.
Defined.

Lemma cascade_is_sequential_witness :
  NoDup (outstanding searching_next).*1
  ∧ outstanding searching_next = [(0, "locality")]
  ∧ dispatched searching_next !! 0 = Some ["neighbourhood"; "locality"].
Proof.
  split; [|split; vm_compute; reflexivity].
  apply (cascade_is_sequential
           (Some ["country"; "locality"; "neighbourhood"; "street"])
           searching_next).
  exact searching_next_reachable.
Defined.

End OnTheExampleService.


(** * More of the master *)

(** ** What a call leaves alone *)

Section Isolation.

Import Lodash Pip.
Context {Num Meta : Type}.
Implicit Types (s : State Num Meta) (σ : System Num Meta).

(** X1. A [results] message concerns its own request only: every other
    entry of [responseQueue] is as before, so are the counter, the workers
    and the dataset; a search it sends carries the id of the message, and
    the only callback it calls is the one of the request of that id. *)
Theorem results_concern_their_request_only s msg s' acts :
  handleResults s msg = Ok (s', acts) →
  (∀ id, id ≠ msg_id msg → responseQueue s' !! id = responseQueue s !! id)
  ∧ requestCount s' = requestCount s
  ∧ workers s' = workers s
  ∧ wofData s' = wofData s
  ∧ (∀ id layer, (id, layer) ∈ sent acts → id = msg_id msg)
  ∧ (∀ cb res, (cb, res) ∈ responded acts →
       ∃ req, responseQueue s !! msg_id msg = Some req
              ∧ cb = responseCallback req).
Proof.
  intros Hcall.
  apply handleResults_Ok in Hcall
    as [(_ & -> & ->)
       |[(req & next & rest & Hreq & _ & _ & _ & -> & ->)
        |[(req & Hreq & _ & _ & -> & ->)
         |(req & matched & record & Hreq & _ & _ & -> & ->)]]]; simpl.
  - split_and!; try done.
    + intros id layer Hin. inversion Hin.
    + intros cb res Hin. inversion Hin.
  - split_and!; try done.
    + intros id Hne. by rewrite lookup_insert_ne.
    + by intros id layer [= -> _]%list_elem_of_singleton.
    + intros cb res Hin. inversion Hin.
  - split_and!; try done.
    + intros id layer Hin. inversion Hin.
    + intros cb res [= -> _]%list_elem_of_singleton. by exists req.
  - split_and!; try done.
    + intros id Hne. by rewrite lookup_delete_ne.
    + intros id layer Hin. inversion Hin.
    + intros cb res [= -> _]%list_elem_of_singleton. by exists req.
Qed.

(** X2. A call of [lookup] never replaces or removes a pending request, and
    never touches the workers or the dataset. The only callback it calls is
    its own, with the empty list; a search it sends carries the value of
    the counter as id, and that id had no entry. *)
Theorem lookup_keeps_pending_requests
    layers s (lat lon : Num) requested cb s' acts :
  lookup layers s lat lon requested cb = Ok (s', acts) →
  (∀ id req, responseQueue s !! id = Some req →
             responseQueue s' !! id = Some req)
  ∧ workers s' = workers s
  ∧ wofData s' = wofData s
  ∧ (∀ cb' res, (cb', res) ∈ responded acts → cb' = cb ∧ res = [])
  ∧ (∀ id layer, (id, layer) ∈ sent acts →
       id = requestCount s ∧ responseQueue s !! id = None).
Proof.
  unfold lookup.
  destruct (lookup_search_layers layers requested) as [|first rest]; simpl.
  { intros [= <- <-]. simpl. split_and!; try done.
    - by intros cb' res [= -> ->]%list_elem_of_singleton.
    - intros id layer Hin. inversion Hin. }
  case_bool_decide as Hq; simpl in Hq.
  { intros [= <- <-]. simpl. split_and!; try done.
    - by intros cb' res [= -> ->]%list_elem_of_singleton.
    - intros id layer Hin. inversion Hin. }
  apply eq_None_not_Some in Hq.
  unfold searchWorker. simpl. case_bool_decide; [|done].
  intros [= <- <-]. simpl. split_and!; try done.
  - intros id req Hreq. rewrite lookup_insert_ne; [done|]. congruence.
  - intros cb' res Hin. inversion Hin.
  - by intros id layer [= -> _]%list_elem_of_singleton.
Qed.

End Isolation.

(** ** The master of a running service *)

Section RunningService.

Import Lodash Pip.
Context {Num Meta : Type}.
Implicit Types (s : State Num Meta) (σ : System Num Meta).

(** The workers of a service are those of its layers, for good. *)
Lemma reachable_workers layers σ :
  reachable layers σ → workers (master σ) = list_to_set layers.
Proof.
  induction 1 as [wof|σ lat lon requested cb s' acts _ IH Hcall
                 |σ before id layer after reply s' acts _ IH _ Hcall];
    simpl; [done| |].
  - by apply lookup_Ok in Hcall as (_ & -> & _).
  - apply handleResults_Ok in Hcall
      as [(_ & -> & _)
         |[(req & next & rest & _ & _ & _ & _ & -> & _)
          |[(req & _ & _ & _ & -> & _)
           |(req & matched & record & _ & _ & _ & -> & _)]]]; done.
Qed.

(** In a running service the worker of the first layer of a lookup exists:
    [lookup] returns. *)
Lemma reachable_lookup_returns layers σ (lat lon : Num) requested cb :
  reachable layers σ →
  ∃ s' acts, lookup layers (master σ) lat lon requested cb = Ok (s', acts).
Proof.
  intros Hreach. unfold lookup.
  pose proof (lookup_search_layers_sublist layers requested) as Hsub.
  destruct (lookup_search_layers layers requested) as [|first rest]; simpl;
    [by eexists _, _|].
  case_bool_decide; [by eexists _, _|].
  unfold searchWorker. simpl.
  rewrite bool_decide_true; [by eexists _, _|].
  rewrite (reachable_workers _ _ Hreach). apply elem_of_list_to_set.
  eapply elem_of_sublist; [|done]. by left.
Qed.

(** Every layer a pending request still has to search has a worker. *)
Lemma reachable_queue_has_workers layers σ id req layer :
  reachable layers σ →
  responseQueue (master σ) !! id = Some req →
  layer ∈ search_layers req →
  layer ∈ workers (master σ).
Proof.
  intros Hreach Hreq Hin. rewrite (reachable_workers _ _ Hreach).
  apply cascade_invariant_reachable in Hreach as (_ & _ & Hq).
  destruct (Hq id req Hreq) as (h & _ & Hsub).
  apply elem_of_list_to_set. eapply elem_of_sublist; [|done].
  apply elem_of_app. by right.
Qed.

(** X3. In a running service [lookup] never throws, and [handleResults]
    throws in one case only: a hit, for a pending request, on a feature
    that has no record in the dataset. In particular the worker of every
    layer that is searched exists. *)
Theorem running_master_throws_on_unknown_feature_only layers σ :
  reachable layers σ →
  (∀ lat lon requested cb,
     ∃ s' acts,
       lookup layers (master σ) lat lon requested cb = Ok (s', acts))
  ∧ (∀ msg e,
       handleResults (master σ) msg = Throw e ↔
       ∃ req matched,
         responseQueue (master σ) !! msg_id msg = Some req
         ∧ msg_results msg = Some matched
         ∧ wofData (master σ) !! matched = None).
Proof.
  intros Hreach. split.
  - intros lat lon requested cb. by apply reachable_lookup_returns.
  - intros msg e. unfold handleResults.
    destruct (responseQueue (master σ) !! msg_id msg) as [req|] eqn:Hreq.
    2:{ split; [done|]. by intros (? & ? & ? & _). }
    destruct (msg_results msg) as [matched|] eqn:Hres.
    + destruct (wofData (master σ) !! matched) as [record|] eqn:Hrec.
      * split; [done|]. intros (? & m & _ & [= <-] & ?). congruence.
      * split; [|by destruct e]. intros _. by exists req, matched.
    + split; [|by intros (? & ? & _ & ? & _)].
      destruct (search_layers req) as [|next rest] eqn:Hq; simpl; [done|].
      unfold searchWorker. simpl. rewrite bool_decide_true; [done|].
      apply (reachable_queue_has_workers layers σ (msg_id msg) req);
        [done..|]. rewrite Hq. by left.
Qed.

(** X4. As long as the counter is below 2^53, a lookup of a running service
    gets an id that no pending request has, the counter moves on by one, and
    the guard against an id that is already present does not fire. *)
Theorem ids_are_fresh_below_saturation
    layers σ (lat lon : Num) requested cb :
  reachable layers σ →
  requestCount (master σ) < 2 ^ 53 →
  responseQueue (master σ) !! requestCount (master σ) = None
  ∧ ∃ s' acts,
      lookup layers (master σ) lat lon requested cb = Ok (s', acts)
      ∧ requestCount s' = requestCount (master σ) + 1
      ∧ ∀ id, LogError (AlreadyPresent id) ∉ acts.
Proof.
  intros Hreach Hlt.
  assert (responseQueue (master σ) !! requestCount (master σ) = None)
    as Hfresh.
  { apply eq_None_not_Some. intros Hsome.
    apply pending_ids_come_from_the_counter in Hreach as (_ & Hids).
    destruct (Hids _ Hsome); lia. }
  split; [done|].
  destruct (reachable_lookup_returns layers σ lat lon requested cb Hreach)
    as (s' & acts & Hcall).
  exists s', acts. split; [done|].
  pose proof Hcall as Hok. apply lookup_Ok in Hok as (-> & _).
  split.
  { unfold increment. by destruct (N.ltb_spec (requestCount (master σ))
                                     (2 ^ 53)); [|lia]. }
  intros id. revert Hcall. unfold lookup.
  destruct (lookup_search_layers layers requested) as [|first rest]; simpl.
  { intros [= _ <-]. by intros [=]%list_elem_of_singleton. }
  rewrite bool_decide_false by (rewrite Hfresh; by intros [? ?]).
  unfold searchWorker. simpl. case_bool_decide; [|done].
  intros [= _ <-]. by intros [=]%list_elem_of_singleton.
Qed.

(** A run over two lists of events, one after the other. *)
Lemma run_app layers s events1 events2 :
  run layers s (events1 ++ events2)
  = match run layers s events1 with
    | (acts1, Some s1) =>
        let '(acts2, final) := run layers s1 events2 in
        (acts1 ++ acts2, final)
    | (acts1, None) => (acts1, None)
    end.
Proof.
  revert s. induction events1 as [|e events1 IH]; intros s; simpl.
  { by destruct (run layers s events2). }
  destruct (handle layers s e) as [[s1 acts1]|]; [|done].
  rewrite IH. destruct (run layers s1 events1) as [acts [s2|]]; [|done].
  destruct (run layers s2 events2). by rewrite app_assoc.
Qed.

(** Misses walk down the queue of a request: each one sends the search of
    the next layer. *)
Lemma misses_walk_the_queue layers id : ∀ searched s req left,
  responseQueue s !! id = Some req →
  search_layers req = searched ++ left →
  (∀ layer, layer ∈ searched → layer ∈ workers s) →
  ∃ s',
    run layers s
      (replicate (length searched)
         (ResultsMsg {| msg_id := id; msg_results := None |}))
    = (map (λ layer, Send layer id (latLon req)) searched, Some s')
    ∧ responseQueue s' !! id = Some (set_search_layers left req)
    ∧ workers s' = workers s
    ∧ wofData s' = wofData s.
Proof.
  induction searched as [|next searched IH]; intros s req left Hreq Hq Hw.
  { exists s. simpl. split_and!; try done.
    rewrite Hreq. f_equal. destruct req. simpl in *. by subst. }
  simpl. unfold handleResults. simpl. rewrite Hreq, Hq. simpl.
  unfold searchWorker. simpl.
  rewrite bool_decide_true by (apply Hw; by left).
  edestruct (IH (set_responseQueue
                   (<[id := set_search_layers (searched ++ left) req]>
                      (responseQueue s)) s)
               (set_search_layers (searched ++ left) req) left)
    as (s' & -> & Hentry & Hworkers & Hwof).
  - simpl. apply lookup_insert_eq.
  - done.
  - intros layer Hin. simpl. apply Hw. by right.
  - exists s'. by split_and!.
Qed.

(** What [lookup] does with an id that has no entry and a first layer that
    has a worker. *)
Lemma lookup_fresh layers s (lat lon : Num) requested cb first rest :
  lookup_search_layers layers requested = first :: rest →
  responseQueue s !! requestCount s = None →
  first ∈ workers s →
  lookup layers s lat lon requested cb
  = Ok (set_responseQueue
          (<[requestCount s :=
               {| results := [];
                  latLon := {| latitude := lat; longitude := lon |};
                  search_layers := rest;
                  responseCallback := cb |}]> (responseQueue s))
          (set_requestCount (increment (requestCount s)) s),
        [Send first (requestCount s)
           {| latitude := lat; longitude := lon |}]).
Proof.
  intros Hs Hfresh Hw. unfold lookup. rewrite Hs. simpl.
  rewrite bool_decide_false by (rewrite Hfresh; by intros [? ?]).
  unfold searchWorker. simpl. by rewrite bool_decide_true.
Qed.

(** The state of a running service before a lookup below 2^53: the id is
    free and every layer of the lookup has a worker. *)
Lemma reachable_ready_for_lookup layers σ requested :
  reachable layers σ →
  requestCount (master σ) < 2 ^ 53 →
  responseQueue (master σ) !! requestCount (master σ) = None
  ∧ ∀ layer, layer ∈ lookup_search_layers layers requested →
             layer ∈ workers (master σ).
Proof.
  intros Hreach Hlt. split.
  - apply eq_None_not_Some. intros Hsome.
    apply pending_ids_come_from_the_counter in Hreach as (_ & Hids).
    destruct (Hids _ Hsome); lia.
  - intros layer Hin. rewrite (reachable_workers _ _ Hreach).
    apply elem_of_list_to_set. eapply elem_of_sublist; [done|].
    apply lookup_search_layers_sublist.
Qed.

(** X5. A lookup that every worker misses: in a running service with the
    counter below 2^53, the lookup and one miss per layer searched make the
    master search each layer of the lookup once, in canonical order, and
    then answer the empty list. Nothing else is sent or answered. *)
Theorem all_misses_search_every_layer_then_answer_empty
    layers σ (lat lon : Num) requested cb :
  reachable layers σ →
  requestCount (master σ) < 2 ^ 53 →
  let id := requestCount (master σ) in
  let searched := lookup_search_layers layers requested in
  (run layers (master σ)
     (LookupCall lat lon requested cb
      :: replicate (length searched)
           (ResultsMsg {| msg_id := id; msg_results := None |}))).1
  = map (λ layer, Send layer id {| latitude := lat; longitude := lon |})
      searched
    ++ [Respond cb None []].
Proof.
  intros Hreach Hlt id searched. subst searched.
  destruct (reachable_ready_for_lookup layers σ requested Hreach Hlt)
    as (Hfresh & Hw).
  fold id in Hfresh.
  destruct (lookup_search_layers layers requested) as [|first rest] eqn:Hs.
  { simpl. unfold lookup. by rewrite Hs. }
  change (run layers (master σ) (?e :: ?l))
    with (match handle layers (master σ) e with
          | Throw _ => ([], None)
          | Ok (s', acts) =>
              let '(acts', final) := run layers s' l in (acts ++ acts', final)
          end).
  unfold handle.
  rewrite (lookup_fresh layers (master σ) lat lon requested cb first rest)
    by (try done; apply Hw; by left).
  fold id. simpl length.
  replace (S (length rest)) with (length rest + 1)%nat by lia.
  rewrite replicate_add, run_app.
  set (req := {| results := [];
                 latLon := {| latitude := lat; longitude := lon |};
                 search_layers := rest;
                 responseCallback := cb |}).
  edestruct (misses_walk_the_queue layers id rest
               (set_responseQueue (<[id := req]> (responseQueue (master σ)))
                  (set_requestCount (increment id) (master σ)))
               req [])
    as (s' & -> & Hentry & _ & _).
  - simpl. apply lookup_insert_eq.
  - simpl. by rewrite app_nil_r.
  - intros layer Hin. simpl. apply Hw. by right.
  - simpl. unfold handleResults. simpl. by rewrite Hentry.
Qed.

(** X6. A lookup that hits after some misses: in a running service with the
    counter below 2^53, after [k] misses ([k] less than the number of
    layers of the lookup) a hit on a feature that has a record makes the
    master answer the assembled hierarchy. The layers searched are the
    first [k+1] layers of the lookup, in canonical order, and the request
    is gone from [responseQueue]. *)
Theorem hit_after_misses_answers_the_hierarchy
    layers σ (lat lon : Num) requested cb k matched record :
  reachable layers σ →
  requestCount (master σ) < 2 ^ 53 →
  (k < length (lookup_search_layers layers requested))%nat →
  wofData (master σ) !! matched = Some record →
  let id := requestCount (master σ) in
  ∃ s',
    run layers (master σ)
      (LookupCall lat lon requested cb
       :: replicate k (ResultsMsg {| msg_id := id; msg_results := None |})
       ++ [ResultsMsg {| msg_id := id; msg_results := Some matched |}])
    = (map (λ layer, Send layer id {| latitude := lat; longitude := lon |})
         (take (S k) (lookup_search_layers layers requested))
       ++ [Respond cb None
             (HierarchyAssembler_resolve (wofData (master σ)) record)],
       Some s')
    ∧ responseQueue s' !! id = None.
Proof.
  intros Hreach Hlt Hk Hrec id.
  destruct (reachable_ready_for_lookup layers σ requested Hreach Hlt)
    as (Hfresh & Hw).
  fold id in Hfresh.
  destruct (lookup_search_layers layers requested) as [|first rest] eqn:Hs;
    [simpl in Hk; lia|].
  simpl in Hk.
  change (run layers (master σ) (?e :: ?l))
    with (match handle layers (master σ) e with
          | Throw _ => ([], None)
          | Ok (s', acts) =>
              let '(acts', final) := run layers s' l in (acts ++ acts', final)
          end).
  unfold handle.
  rewrite (lookup_fresh layers (master σ) lat lon requested cb first rest)
    by (try done; apply Hw; by left).
  fold id. rewrite run_app.
  set (req := {| results := [];
                 latLon := {| latitude := lat; longitude := lon |};
                 search_layers := rest;
                 responseCallback := cb |}).
  assert (length (take k rest) = k) as Hlen by (rewrite length_take; lia).
  replace (replicate k (ResultsMsg {| msg_id := id; msg_results := None |}))
    with (replicate (length (take k rest))
            (ResultsMsg (Num:=Num) {| msg_id := id; msg_results := None |}))
    by (by rewrite Hlen).
  edestruct (misses_walk_the_queue layers id (take k rest)
               (set_responseQueue (<[id := req]> (responseQueue (master σ)))
                  (set_requestCount (increment id) (master σ)))
               req (drop k rest))
    as (s1 & -> & Hentry & _ & Hwof).
  - simpl. apply lookup_insert_eq.
  - simpl. by rewrite take_drop.
  - intros layer Hin. simpl. apply Hw. right.
    by eapply elem_of_sublist; [|apply sublist_take].
  - simpl in Hwof.
    assert (wofData s1 !! matched = Some record) as Hrec1
      by (by rewrite Hwof).
    simpl.
    rewrite (handleResults_hit s1 id _ matched record Hentry Hrec1).
    eexists. split.
    + simpl. rewrite Hwof. reflexivity.
    + simpl. apply lookup_delete_eq.
Qed.

End RunningService.

(** ** Starting the workers *)

Section StartingTheWorkers.

Import Pip Startup.
Context {Num Meta : Type}.
Implicit Types (s : State Num Meta).
Implicit Types (arrivals : list (string * gmap string (FeatureRecord Meta))).

Local Abbreviation fresh_module := (module_loaded (Num:=Num) (Meta:=Meta)).

Lemma loading_snoc arrivals layer data s :
  loading (arrivals ++ [(layer, data)]) s
  = startWorker_loaded layer data (loading arrivals s).
Proof. unfold loading. by rewrite foldl_app. Qed.

Lemma loading_keeps_requests arrivals s :
  requestCount (loading arrivals s) = requestCount s
  ∧ responseQueue (loading arrivals s) = responseQueue s.
Proof.
  induction arrivals as [|[layer data] arrivals IH] using rev_ind; [done|].
  by rewrite loading_snoc.
Qed.

Lemma loading_workers arrivals s :
  workers (loading arrivals s) = list_to_set arrivals.*1 ∪ workers s.
Proof.
  induction arrivals as [|[layer data] arrivals IH] using rev_ind.
  { simpl. set_solver. }
  rewrite loading_snoc. simpl. rewrite IH, fmap_app, list_to_set_app_L.
  simpl. set_solver.
Qed.

(** The record of the last arrival that has an identifier is the one of
    the dataset. *)
Lemma loading_lookup_last arrivals_before layer data arrivals_after s id r :
  data !! id = Some r →
  (∀ layer' data', (layer', data') ∈ arrivals_after → data' !! id = None) →
  wofData (loading (arrivals_before ++ (layer, data) :: arrivals_after) s)
    !! id = Some r.
Proof.
  intros Hr.
  induction arrivals_after as [|[layer' data'] arrivals_after IH]
    using rev_ind; intros Hlater.
  - rewrite loading_snoc. simpl. by apply lookup_union_Some_l.
  - rewrite app_comm_cons, app_assoc, loading_snoc. simpl.
    rewrite lookup_union_r.
    + apply IH. intros l d Hin. apply (Hlater l d).
      apply elem_of_app. by left.
    + apply (Hlater layer'). apply elem_of_app. right. by left.
Qed.

(** A record of the dataset was handed over by some worker, and by none
    that reported later. *)
Lemma loading_lookup_Some arrivals id r :
  wofData (loading arrivals fresh_module) !! id = Some r →
  ∃ before layer data after,
    arrivals = before ++ (layer, data) :: after
    ∧ data !! id = Some r
    ∧ ∀ layer' data', (layer', data') ∈ after → data' !! id = None.
Proof.
  induction arrivals as [|[layer data] arrivals IH] using rev_ind.
  { simpl. by rewrite lookup_empty. }
  rewrite loading_snoc. simpl. intros [Hd|(Hnone & Hw)]%lookup_union_Some_raw.
  - exists arrivals, layer, data, []. split_and!; [done..|].
    intros l d Hin. inversion Hin.
  - destruct (IH Hw) as (before & l & d & after & -> & Hd & Hafter).
    exists before, l, d, (after ++ [(layer, data)]).
    split_and!; [by rewrite <- app_assoc|done|].
    intros l' d' [Hin|Hin%list_elem_of_singleton]%elem_of_app;
      [by eapply Hafter|].
    by injection Hin as -> ->.
Qed.

(** X7. Starting a service ends in the state lookups start from: when the
    worker of every layer has reported once, in whatever order, the workers
    are those of the layers, no request is pending, the counter is 0, and
    the dataset is the data the workers handed over, merged: it holds for
    an identifier the record of the last worker to report that has the
    identifier, and nothing for an identifier that no worker has. *)
Theorem loading_ends_in_the_initial_state layers arrivals :
  arrivals.*1 ≡ₚ layers →
  ∃ wof,
    loading arrivals fresh_module = master (initial layers wof)
    ∧ ∀ id r,
        wof !! id = Some r ↔
        ∃ before layer data after,
          arrivals = before ++ (layer, data) :: after
          ∧ data !! id = Some r
          ∧ ∀ layer' data', (layer', data') ∈ after → data' !! id = None.
Proof.
  intros Hperm. exists (wofData (loading arrivals fresh_module)). split.
  - pose proof (loading_keeps_requests arrivals fresh_module) as (Hc & Hq).
    pose proof (loading_workers arrivals fresh_module) as Hw.
    destruct (loading arrivals fresh_module) as [count ws queue wof].
    simpl in *. subst count queue. f_equal.
    rewrite Hw, union_empty_r_L. apply set_eq. intros layer.
    rewrite !elem_of_list_to_set. by rewrite Hperm.
  - intros id r. split; [apply loading_lookup_Some|].
    intros (before & layer & data & after & -> & Hd & Hafter).
    by apply loading_lookup_last.
Qed.

(** X8. When workers hand over records under the same identifier, the one
    that reports last wins: the record of an identifier in the dataset is
    the one of the last arrival that has the identifier. *)
Theorem last_arrival_wins arrivals_before layer data arrivals_after s id r :
  data !! id = Some r →
  (∀ layer' data', (layer', data') ∈ arrivals_after → data' !! id = None) →
  wofData (loading (arrivals_before ++ (layer, data) :: arrivals_after) s)
    !! id = Some r.
Proof. apply loading_lookup_last. Qed.

(** The identifiers of the dataset are those the workers handed over. *)
Lemma loading_wofData_Some arrivals id r :
  wofData (loading arrivals fresh_module) !! id = Some r →
  ∃ layer data, (layer, data) ∈ arrivals ∧ data !! id = Some r.
Proof.
  induction arrivals as [|[layer data] arrivals IH] using rev_ind.
  { simpl. by rewrite lookup_empty. }
  rewrite loading_snoc. simpl. intros [Hd|(_ & Hw)]%lookup_union_Some_raw.
  - exists layer, data. split; [|done]. apply elem_of_app. right. by left.
  - destruct (IH Hw) as (l & d & Hin & Hd). exists l, d.
    split; [|done]. apply elem_of_app. by left.
Qed.

(** X9. When the workers agree on the identifiers they share (as when every
    feature belongs to one layer), the dataset holds a record exactly when
    some worker handed it over, and the state the service starts in does
    not depend on the order in which the workers report. *)
Theorem loading_order_does_not_matter arrivals arrivals' :
  (∀ layer1 data1 layer2 data2 id r1 r2,
     (layer1, data1) ∈ arrivals → (layer2, data2) ∈ arrivals →
     data1 !! id = Some r1 → data2 !! id = Some r2 → r1 = r2) →
  arrivals' ≡ₚ arrivals →
  (∀ id r,
     wofData (loading arrivals fresh_module) !! id = Some r ↔
     ∃ layer data, (layer, data) ∈ arrivals ∧ data !! id = Some r)
  ∧ loading arrivals' fresh_module
    = loading arrivals fresh_module.
Proof.
  intros Hagree Hperm.
  assert (∀ arrivals0, arrivals0 ≡ₚ arrivals → ∀ id r,
            wofData (loading arrivals0 fresh_module) !! id
              = Some r ↔
            ∃ layer data, (layer, data) ∈ arrivals ∧ data !! id = Some r)
    as Hchar.
  { intros arrivals0 Hp id r. split.
    - intros (l & d & Hin & Hd)%loading_wofData_Some.
      exists l, d. by rewrite <- Hp.
    - intros (l & d & Hin & Hd). rewrite <- Hp in Hin.
      destruct (wofData (loading arrivals0 fresh_module) !! id)
        as [r'|] eqn:Hw.
      + apply loading_wofData_Some in Hw as (l' & d' & Hin' & Hd').
        f_equal. rewrite Hp in Hin, Hin'.
        by apply (Hagree l' d' l d id r' r).
      + exfalso.
        apply list_elem_of_split in Hin as (before & after & ->).
        clear Hp. revert Hw.
        induction after as [|[l' d'] after IH] using rev_ind.
        * rewrite loading_snoc. simpl.
          by rewrite (lookup_union_Some_l _ _ _ _ Hd).
        * rewrite app_comm_cons, app_assoc, loading_snoc. simpl.
          intros (_ & Hw)%lookup_union_None. by apply IH. }
  split; [by apply Hchar|].
  pose proof (loading_keeps_requests arrivals fresh_module) as (Hc & Hq).
  pose proof (loading_keeps_requests arrivals' fresh_module) as (Hc' & Hq').
  pose proof (loading_workers arrivals fresh_module) as Hw.
  pose proof (loading_workers arrivals' fresh_module) as Hw'.
  assert (wofData (loading arrivals' fresh_module)
          = wofData (loading arrivals fresh_module)) as Hwof.
  { apply map_eq. intros id. apply option_eq. intros r.
    by rewrite (Hchar arrivals' Hperm), (Hchar arrivals). }
  destruct (loading arrivals fresh_module) as [c w q d].
  destruct (loading arrivals' fresh_module) as [c' w' q' d'].
  simpl in *. subst. f_equal.
  apply set_eq. intros layer.
  rewrite !elem_of_union, !elem_of_list_to_set. by rewrite Hperm.
Qed.

End StartingTheWorkers.

(** * More of the postal city table *)

(** ** Normalizing postal codes *)

Section Normalizing.

Import PostalCityMap.
Variable toUpperCase : JsString → JsString.
Variable tables : gmap JsString (gmap JsString (list Alternative)).

Lemma match_five_digits_short postcode :
  (length postcode < 5)%nat → match_five_digits postcode = None.
Proof.
  induction postcode as [|c rest IH]; [done|]. intros Hlen.
  unfold match_five_digits; fold match_five_digits.
  rewrite length_take, Nat.min_r by lia.
  destruct (Nat.eqb_spec (length (c :: rest)) 5) as [Heq|_]; [lia|].
  simpl in *. apply IH. lia.
Qed.

Lemma match_five_digits_here digits rest :
  length digits = 5%nat → forallb is_digit digits = true →
  match_five_digits (digits ++ rest) = Some digits.
Proof.
  intros Hlen Hdigits.
  destruct digits as [|c digits]; [done|].
  change ((c :: digits) ++ rest) with (c :: (digits ++ rest)).
  unfold match_five_digits; fold match_five_digits.
  change (c :: (digits ++ rest)) with ((c :: digits) ++ rest).
  rewrite take_app_length' by done.
  by rewrite Hlen, Hdigits.
Qed.

Lemma remove_hyphen_to_end_digits digits :
  forallb is_digit digits = true → remove_hyphen_to_end digits = digits.
Proof.
  induction digits as [|c digits IH]; [done|]. simpl.
  intros (Hc & Hdigits)%andb_true_iff.
  destruct (N.eqb_spec c 45) as [->|_]; [done|]. simpl.
  by rewrite IH.
Qed.

Lemma filter_digits_id digits :
  forallb is_digit digits = true →
  filter (λ c, is_digit c = true) digits = digits.
Proof.
  induction digits as [|c digits IH]; [done|]. simpl.
  intros (Hc & Hdigits)%andb_true_iff.
  rewrite filter_cons_True by done. by rewrite IH.
Qed.

(** A key of a 'zip' country is its own key. *)
Lemma normalizePostcode_zip_key isocode key :
  isocode ∈ USA_ISO_CODES →
  (length key ≤ 5)%nat → forallb is_digit key = true →
  normalizePostcode toUpperCase key (Some isocode) = key.
Proof.
  intros Hzip Hlen Hdigits. unfold normalizePostcode.
  rewrite bool_decide_true by (apply list_elem_of_fmap; by exists isocode).
  destruct (decide (length key = 5%nat)) as [Hfive|Hshort].
  - rewrite <- (app_nil_r key) at 1.
    by rewrite match_five_digits_here.
  - rewrite match_five_digits_short by lia.
    rewrite remove_hyphen_to_end_digits, filter_digits_id by done.
    apply take_ge. lia.
Qed.

(** X10. For a country of the 'zip' system, normalizing is idempotent: the
    key of a postal code is a string of at most five digits and is its own
    key, so [lookup] answers the same for a postal code and for its key. *)
Theorem zip_normalization_is_idempotent isocode postcode :
  isocode ∈ USA_ISO_CODES →
  let key := normalizePostcode toUpperCase postcode (Some isocode) in
  (length key ≤ 5)%nat
  ∧ forallb is_digit key = true
  ∧ normalizePostcode toUpperCase key (Some isocode) = key
  ∧ lookup toUpperCase tables isocode key
    = lookup toUpperCase tables isocode postcode.
Proof.
  intros Hzip key.
  destruct (normalizePostcode_zip toUpperCase postcode isocode Hzip)
    as (Hlen & Hdigits).
  fold key in Hlen, Hdigits.
  assert (normalizePostcode toUpperCase key (Some isocode) = key) as Hkey
    by by apply normalizePostcode_zip_key.
  split_and!; [done..|]. unfold lookup. by rewrite Hkey.
Qed.

(** A postal code made of a prefix without digits, five digits and
    anything after them. *)
Lemma normalizePostcode_zip_padded isocode prefix digits suffix :
  isocode ∈ USA_ISO_CODES →
  forallb (λ c, negb (is_digit c)) prefix = true →
  length digits = 5%nat →
  forallb is_digit digits = true →
  normalizePostcode toUpperCase (prefix ++ digits ++ suffix) (Some isocode)
  = digits.
Proof.
  intros Hzip Hprefix Hlen Hdigits. unfold normalizePostcode.
  rewrite bool_decide_true by (apply list_elem_of_fmap; by exists isocode).
  assert (match_five_digits (prefix ++ digits ++ suffix) = Some digits)
    as ->; [|done].
  induction prefix as [|c prefix IH].
  { exact (match_five_digits_here digits suffix Hlen Hdigits). }
  simpl in Hprefix. apply andb_true_iff in Hprefix as (Hc & Hprefix).
  change ((c :: prefix) ++ digits ++ suffix)
    with (c :: (prefix ++ digits ++ suffix)).
  unfold match_five_digits; fold match_five_digits.
  replace (forallb is_digit (take 5 (c :: prefix ++ digits ++ suffix)))
    with false.
  - rewrite andb_false_r. by apply IH.
  - simpl. by destruct (is_digit c).
Qed.

(** X11. For a country of the 'zip' system, a state prefix and a ZIP+4
    suffix are dropped: a postal code made of a prefix without digits, five
    digits, and anything after them has the five digits as key, and
    [lookup] answers for it what it answers for the five digits. *)
Theorem zip_prefix_and_suffix_are_dropped isocode prefix digits suffix :
  isocode ∈ USA_ISO_CODES →
  forallb (λ c, negb (is_digit c)) prefix = true →
  length digits = 5%nat →
  forallb is_digit digits = true →
  normalizePostcode toUpperCase (prefix ++ digits ++ suffix) (Some isocode)
  = digits
  ∧ lookup toUpperCase tables isocode (prefix ++ digits ++ suffix)
    = lookup toUpperCase tables isocode digits.
Proof.
  intros Hzip Hprefix Hlen Hdigits.
  pose proof (normalizePostcode_zip_padded isocode prefix digits suffix
                Hzip Hprefix Hlen Hdigits) as Hpadded.
  split; [done|]. unfold lookup. rewrite Hpadded.
  rewrite normalizePostcode_zip_key; [done..|lia|done].
Qed.

(** X12. For a country of the 'zip' system [lookup] only ever reads keys of
    at most five digits: whatever the table holds under another key (a code
    with a letter, a hyphen or a sixth digit) is never answered. *)
Theorem zip_lookup_reads_digit_keys_only isocode postcode alternatives :
  isocode ∈ USA_ISO_CODES →
  lookup toUpperCase tables isocode postcode = Some alternatives →
  ∃ table key,
    tables !! isocode = Some table
    ∧ table !! key = Some alternatives
    ∧ (length key ≤ 5)%nat
    ∧ forallb is_digit key = true.
Proof.
  intros Hzip. unfold lookup.
  destruct (tables !! isocode) as [table|]; [|done].
  destruct (table !! _) as [alts|] eqn:Hkey; [|done].
  intros [= <-]. eexists table, _. split_and!; [done..| |];
    by apply (normalizePostcode_zip toUpperCase postcode isocode).
Qed.

End Normalizing.

(** ** Loading a table *)

Section PostProcessing.

Import PostalCityMap PostalCityLoad.
Implicit Types (a b : Alternative) (l : list Alternative).

Lemma stable_insert_perm a l : stable_insert a l ≡ₚ a :: l.
Proof.
  induction l as [|b l IH]; simpl; [done|].
  destruct (by_weight_desc a b) as [d|]; [|done].
  destruct (0 <? d)%Z; [|done]. rewrite IH. apply Permutation_swap.
Qed.

Lemma stable_perm l : stable l ≡ₚ l.
Proof.
  induction l as [|a l IH]; simpl; [done|].
  by rewrite stable_insert_perm, IH.
Qed.

Lemma stable_insert_sorted a l :
  is_Some (weight a) → weights_are_numbers l →
  StronglySorted (λ a b, (weight_of b ≤ weight_of a)%Z) l →
  StronglySorted (λ a b, (weight_of b ≤ weight_of a)%Z) (stable_insert a l).
Proof.
  intros [x Hx] Hl Hsorted.
  induction Hsorted as [|b l Hsorted IH Hb]; simpl.
  { repeat constructor. }
  apply Forall_cons in Hl as ([y Hy] & Hl).
  unfold by_weight_desc. rewrite Hx, Hy.
  destruct (Z.ltb_spec 0 (y - x)) as [Hlt|Hge].
  - constructor; [by apply IH|].
    rewrite stable_insert_perm. constructor; [|done].
    unfold weight_of. rewrite Hx, Hy. simpl. lia.
  - constructor; [by constructor|].
    constructor.
    + unfold weight_of. rewrite Hx, Hy. simpl. lia.
    + eapply Forall_impl; [exact Hb|]. intros c Hc. simpl in Hc.
      unfold weight_of in *. rewrite Hx, Hy in *. simpl in *. lia.
Qed.

Lemma stable_sorted l :
  weights_are_numbers l →
  StronglySorted (λ a b, (weight_of b ≤ weight_of a)%Z) (stable l).
Proof.
  induction l as [|a l IH]; simpl; [constructor|].
  intros (Ha & Hl)%Forall_cons.
  apply stable_insert_sorted; [done| |by apply IH].
  unfold weights_are_numbers. by rewrite stable_perm.
Qed.

Lemma uniqBy_wofid_sublist seen l : uniqBy_wofid seen l `sublist_of` l.
Proof.
  revert seen. induction l as [|a l IH]; intros seen; simpl; [done|].
  case_bool_decide; [by apply sublist_cons|by apply sublist_skip].
Qed.

Lemma elem_of_uniqBy_wofid seen l a :
  a ∈ uniqBy_wofid seen l → a ∈ l ∧ wofid a ∉ seen.
Proof.
  revert seen. induction l as [|b l IH]; intros seen; simpl.
  { intros H. inversion H. }
  case_bool_decide as Hseen.
  - intros (? & ?)%IH. split; [by right|done].
  - intros [->|(? & Hn)%IH]%elem_of_cons; [split; [by left|done]|].
    split; [by right|]. intros ?. apply Hn. by right.
Qed.

Lemma uniqBy_wofid_NoDup seen l : NoDup (wofid <$> uniqBy_wofid seen l).
Proof.
  revert seen. induction l as [|a l IH]; intros seen; simpl; [constructor|].
  case_bool_decide as Hseen; [done|]. simpl. constructor; [|done].
  intros (b & Hb & Hin)%list_elem_of_fmap.
  apply elem_of_uniqBy_wofid in Hin as (_ & Hn). apply Hn. rewrite <- Hb.
  by left.
Qed.

(** Of the rows with one [wofid] the first stays: every row is represented
    by a row that is itself or stands before it. *)
Lemma uniqBy_wofid_first seen l a :
  a ∈ l → wofid a ∉ seen →
  ∃ l1 a' l2,
    l = l1 ++ a' :: l2 ∧ wofid a' = wofid a ∧ a' ∈ uniqBy_wofid seen l
    ∧ (a = a' ∨ a ∈ l2).
Proof.
  revert seen. induction l as [|b l IH]; intros seen Hin Hseen.
  { inversion Hin. }
  simpl. destruct (decide (wofid b = wofid a)) as [Heq|Hne].
  - exists [], b, l. rewrite bool_decide_false by (by rewrite Heq).
    split_and!; [done|done|by left|].
    apply elem_of_cons in Hin as [->|Hin]; [by left|by right].
  - apply elem_of_cons in Hin as [->|Hin]; [done|].
    case_bool_decide as Hb.
    + destruct (IH seen Hin Hseen) as (l1 & a' & l2 & -> & Hw & Hin' & Hor).
      by exists (b :: l1), a', l2.
    + destruct (IH (wofid b :: seen) Hin)
        as (l1 & a' & l2 & -> & Hw & Hin' & Hor).
      { rewrite elem_of_cons. by intros [?|?]. }
      exists (b :: l1), a', l2. split_and!; [done|done|by right|done].
Qed.

(** What the post-processing keeps. *)
Lemma elem_of_post_process l a :
  a ∈ post_process l → a ∈ l ∧ is_valid a = true.
Proof.
  unfold post_process. intros (Hin & _)%elem_of_uniqBy_wofid.
  rewrite stable_perm in Hin. by apply list_elem_of_filter in Hin as (? & ?).
Qed.

Lemma post_process_sorted l :
  weights_are_numbers l →
  StronglySorted (λ a b, (weight_of b ≤ weight_of a)%Z) (post_process l).
Proof.
  intros Hl. unfold post_process.
  assert (StronglySorted (λ a b, (weight_of b ≤ weight_of a)%Z)
            (stable (filter (λ a, is_valid a = true) l))) as Hsorted.
  { apply stable_sorted. unfold weights_are_numbers in *.
    rewrite Forall_forall in *. intros a (_ & Hin)%list_elem_of_filter.
    by apply Hl. }
  revert Hsorted. generalize (stable (filter (λ a, is_valid a = true) l)).
  generalize (@nil JsString).
  intros seen l'. revert seen.
  induction l' as [|a l' IH]; intros seen; simpl; [done|].
  intros (Ha & Hsorted)%StronglySorted_cons.
  case_bool_decide; [by apply IH|].
  apply StronglySorted_cons. split; [|by apply IH].
  rewrite Forall_forall in *. intros b (Hb & _)%elem_of_uniqBy_wofid.
  by apply Ha.
Qed.

Lemma post_process_best l a :
  weights_are_numbers l → a ∈ l → is_valid a = true →
  ∃ a', a' ∈ post_process l ∧ wofid a' = wofid a
        ∧ (weight_of a ≤ weight_of a')%Z.
Proof.
  intros Hl Hin Hvalid. unfold post_process.
  set (l' := stable (filter (λ a, is_valid a = true) l)).
  assert (a ∈ l') as Hin'.
  { unfold l'. rewrite stable_perm. by apply list_elem_of_filter. }
  assert (StronglySorted (λ a b, (weight_of b ≤ weight_of a)%Z) l')
    as Hsorted.
  { apply stable_sorted. unfold weights_are_numbers in *.
    rewrite Forall_forall in *. intros b (_ & Hb)%list_elem_of_filter.
    by apply Hl. }
  destruct (uniqBy_wofid_first [] l' a Hin')
    as (l1 & a' & l2 & Hsplit & Hw & Hkept & Hor); [apply not_elem_of_nil|].
  exists a'. split_and!; [done..|].
  destruct Hor as [->|Hlater]; [done|].
  rewrite Hsplit in Hsorted.
  apply StronglySorted_app_1_r in Hsorted.
  apply StronglySorted_cons in Hsorted as (Hall & _).
  rewrite Forall_forall in Hall. by apply Hall.
Qed.

End PostProcessing.

Section LoadingATable.

Import PostalCityMap PostalCityLoad.
Variable toUpperCase : JsString → JsString.
Variable parseInt : Weight → option Z.
Implicit Types (line row : Line) (lines rows : list Line).
Implicit Types (m table : gmap JsString (list Alternative)).

Lemma filter_lines_Throw lines e :
  filter_lines lines = Pip.Throw e ↔
  ∃ line, line ∈ lines ∧ has_mandatory_columns line = Pip.Throw e.
Proof.
  destruct e.
  induction lines as [|line lines IH]; simpl.
  { split; [done|]. intros (? & H & _). inversion H. }
  destruct (has_mandatory_columns line) as [keep|[]] eqn:Hline.
  - destruct (filter_lines lines) as [kept|[]] eqn:Hrest.
    + split; [done|]. intros (l & [->|Hin]%elem_of_cons & Hl); [congruence|].
      assert (Pip.Ok kept = Pip.Throw Pip.TypeError) as Habs
        by (apply IH; eauto).
      discriminate.
    + split; [|done]. intros _.
      destruct (proj1 IH eq_refl) as (l & Hin & Hl).
      exists l. split; [by right|done].
  - split; [|done]. intros _. exists line. split; [by left|done].
Qed.

Lemma filter_lines_Ok lines kept :
  filter_lines lines = Pip.Ok kept →
  kept = filter (λ line, is_complete line = true) lines.
Proof.
  revert kept. induction lines as [|line lines IH]; intros kept; simpl.
  { by intros [= <-]. }
  destruct (has_mandatory_columns line) as [keep|] eqn:Hline; [|done].
  destruct (filter_lines lines) as [kept'|]; [|done].
  intros [= <-]. rewrite (IH kept' eq_refl).
  assert (is_complete line = keep) as Hkeep.
  { unfold has_mandatory_columns in Hline. unfold is_complete.
    destruct (line_postalcode line) as [[|? ?]|],
             (line_wofid line) as [[|? ?]|],
             (line_name line) as [[|? ?]|]; simpl in *; congruence. }
  destruct keep.
  - by rewrite filter_cons_True.
  - rewrite filter_cons_False; [done|]. by rewrite Hkeep.
Qed.

Lemma assign_default_weight_complete defaultWeight line :
  is_complete (assign_default_weight defaultWeight line) = is_complete line.
Proof.
  unfold assign_default_weight. destruct defaultWeight; [|done].
  by destruct (_ && _).
Qed.

Lemma parse_Throw lines defaultWeight e :
  parse lines defaultWeight = Pip.Throw e ↔
  ∃ line, line ∈ lines ∧ has_mandatory_columns line = Pip.Throw e.
Proof.
  unfold parse. rewrite <- filter_lines_Throw.
  destruct (filter_lines lines) as [kept|[]]; [|by destruct e].
  split; done.
Qed.

Lemma parse_Ok lines defaultWeight rows :
  parse lines defaultWeight = Pip.Ok rows →
  rows = map (assign_default_weight defaultWeight)
           (filter (λ line, is_complete line = true) lines).
Proof.
  unfold parse. destruct (filter_lines lines) as [kept|] eqn:Hkept; [|done].
  intros [= <-]. by rewrite (filter_lines_Ok _ _ Hkept).
Qed.

Lemma parsed_rows_complete base override row :
  row ∈ parsed_rows base override → is_complete row = true.
Proof.
  unfold parsed_rows.
  intros [(line & -> & Hin)%list_elem_of_fmap
         |(line & -> & Hin)%list_elem_of_fmap]%elem_of_app;
    rewrite assign_default_weight_complete;
    by apply list_elem_of_filter in Hin as (? & _).
Qed.

(** Filing rows that have their mandatory columns. *)
Lemma add_rows_Ok rows : ∀ m,
  (∀ row, row ∈ rows → is_complete row = true) →
  ∃ m',
    add_rows toUpperCase parseInt m rows = Pip.Ok m'
    ∧ ∀ key,
        m' !! key
        = match alternatives_for toUpperCase parseInt key rows with
          | [] => m !! key
          | alts => Some (default [] (m !! key) ++ alts)
          end.
Proof.
  induction rows as [|row rows IH]; intros m Hrows; simpl.
  { by exists m. }
  assert (is_complete row = true) as Hrow by (apply Hrows; by left).
  unfold is_complete in Hrow. unfold add_row.
  destruct (line_postalcode row) as [[|c1 pc]|]; try done.
  destruct (line_wofid row) as [[|c2 w]|]; try done.
  destruct (line_name row) as [[|c3 n]|]; try done.
  set (k := normalizePostcode toUpperCase (c1 :: pc) None).
  set (a := alternative_of parseInt (c2 :: w) (c3 :: n) row).
  destruct (IH (<[k := default [] (m !! k) ++ [a]]> m))
    as (m' & -> & Hm').
  { intros r Hr. apply Hrows. by right. }
  exists m'. split; [done|]. intros key. rewrite Hm'.
  destruct (decide (k = key)) as [<-|Hne].
  - rewrite bool_decide_true by done. rewrite lookup_insert_eq. simpl.
    destruct (alternatives_for toUpperCase parseInt k rows); [done|].
    by rewrite <- app_assoc.
  - rewrite bool_decide_false by done. by rewrite lookup_insert_ne.
Qed.

(** What [loadTable] returns when no line lacks a mandatory column. *)
Lemma loadTable_Ok base override :
  (∀ line, line ∈ default [] base ++ default [] override →
           ∀ e, has_mandatory_columns line ≠ Pip.Throw e) →
  ∃ table,
    loadTable toUpperCase parseInt base override = Pip.Ok table
    ∧ ∀ key,
        table !! key
        = match alternatives_for toUpperCase parseInt key
                  (parsed_rows base override) with
          | [] => None
          | alts => Some (post_process alts)
          end.
Proof.
  intros Hlines. unfold loadTable.
  assert (∀ lines defaultWeight,
            (∀ line, line ∈ lines →
                     ∀ e, has_mandatory_columns line ≠ Pip.Throw e) →
            parse lines defaultWeight
            = Pip.Ok (map (assign_default_weight defaultWeight)
                        (filter (λ line, is_complete line = true) lines)))
    as Hparse.
  { intros lines dw Hl.
    destruct (parse lines dw) as [rows|e] eqn:Hp.
    - by rewrite (parse_Ok _ _ _ Hp).
    - apply parse_Throw in Hp as (line & Hin & Hline).
      by destruct (Hl line Hin e). }
  assert (match base with
          | Some lines => parse lines None
          | None => Pip.Ok []
          end
          = Pip.Ok (map (assign_default_weight None)
                      (filter (λ line, is_complete line = true)
                         (default [] base)))) as ->.
  { destruct base as [lines|]; [|done]. apply Hparse.
    intros line Hin. apply Hlines. apply elem_of_app. by left. }
  assert (match override with
          | Some lines => parse lines (Some MAX_SAFE_INTEGER)
          | None => Pip.Ok []
          end
          = Pip.Ok (map (assign_default_weight (Some MAX_SAFE_INTEGER))
                      (filter (λ line, is_complete line = true)
                         (default [] override)))) as ->.
  { destruct override as [lines|]; [|done]. apply Hparse.
    intros line Hin. apply Hlines. apply elem_of_app. by right. }
  fold (parsed_rows base override).
  destruct (add_rows_Ok (parsed_rows base override) ∅)
    as (m & -> & Hm); [apply parsed_rows_complete|].
  eexists. split; [done|]. intros key.
  rewrite lookup_fmap, Hm, lookup_empty.
  by destruct (alternatives_for _ _ _ _).
Qed.

Lemma loadTable_Throw base override e :
  loadTable toUpperCase parseInt base override = Pip.Throw e ↔
  ∃ line, line ∈ default [] base ++ default [] override
          ∧ has_mandatory_columns line = Pip.Throw e.
Proof.
  destruct e. split.
  - unfold loadTable.
    destruct (match base with Some _ => _ | None => _ end)
      as [rows1|[]] eqn:Hbase.
    2:{ intros _. destruct base as [lines|]; [|done].
        apply parse_Throw in Hbase as (line & Hin & Hline).
        exists line. split; [|done]. apply elem_of_app. by left. }
    destruct (match override with Some _ => _ | None => _ end)
      as [rows2|[]] eqn:Hoverride.
    2:{ intros _. destruct override as [lines|]; [|done].
        apply parse_Throw in Hoverride as (line & Hin & Hline).
        exists line. split; [|done]. apply elem_of_app. by right. }
    destruct (add_rows_Ok (rows1 ++ rows2) ∅) as (m & -> & _); [|done].
    assert (∀ lines defaultWeight rows row,
              parse lines defaultWeight = Pip.Ok rows → row ∈ rows →
              is_complete row = true) as Hcomplete.
    { intros lines dw rows row ->%parse_Ok
        (line & -> & Hin)%list_elem_of_fmap.
      rewrite assign_default_weight_complete.
      by apply list_elem_of_filter in Hin as (? & _). }
    intros row [Hin|Hin]%elem_of_app.
    + destruct base as [lines|]; [by eapply Hcomplete|].
      injection Hbase as <-. inversion Hin.
    + destruct override as [lines|]; [by eapply Hcomplete|].
      injection Hoverride as <-. inversion Hin.
  - intros (line & Hin & Hline). unfold loadTable.
    apply elem_of_app in Hin as [Hin|Hin].
    + destruct base as [lines|]; [|inversion Hin]. simpl in Hin.
      assert (parse lines None = Pip.Throw Pip.TypeError) as ->; [|done].
      apply parse_Throw. by exists line.
    + destruct (match base with Some _ => _ | None => _ end) as [rows|[]];
        [|done].
      destruct override as [lines|]; [|inversion Hin]. simpl in Hin.
      assert (parse lines (Some MAX_SAFE_INTEGER)
              = Pip.Throw Pip.TypeError) as ->; [|done].
      apply parse_Throw. by exists line.
Qed.

Lemma loadTable_Ok_inv base override table key :
  loadTable toUpperCase parseInt base override = Pip.Ok table →
  table !! key
  = match alternatives_for toUpperCase parseInt key
            (parsed_rows base override) with
    | [] => None
    | alts => Some (post_process alts)
    end.
Proof.
  intros Hload.
  destruct (loadTable_Ok base override) as (table' & Hok & Htable).
  - intros line Hin e Hline.
    assert (loadTable toUpperCase parseInt base override = Pip.Throw e)
      by (apply loadTable_Throw; by exists line).
    congruence.
  - rewrite Hload in Hok. injection Hok as <-. apply Htable.
Qed.

Lemma elem_of_alternatives_for key rows a :
  a ∈ alternatives_for toUpperCase parseInt key rows ↔
  ∃ row postalcode wofid_column name_column,
    row ∈ rows
    ∧ line_postalcode row = Some postalcode
    ∧ line_wofid row = Some wofid_column
    ∧ line_name row = Some name_column
    ∧ normalizePostcode toUpperCase postalcode None = key
    ∧ a = alternative_of parseInt wofid_column name_column row.
Proof.
  unfold alternatives_for. rewrite list_elem_of_omap. split.
  - intros (row & Hin & Hrow).
    destruct (line_postalcode row) as [pc|] eqn:Hpc; [|done].
    destruct (line_wofid row) as [w|] eqn:Hw; [|done].
    destruct (line_name row) as [n|] eqn:Hn; [|done].
    case_bool_decide; [|done]. injection Hrow as <-.
    by exists row, pc, w, n.
  - intros (row & pc & w & n & Hin & Hpc & Hw & Hn & Hkey & ->).
    exists row. split; [done|]. rewrite Hpc, Hw, Hn.
    by rewrite bool_decide_true.
Qed.

(** X13. Loading a table fails in one case only: some line of one of the
    two files lacks a mandatory column that the test of [parse] reads (the
    postal code; the [wofid] after a postal code that is not empty; the
    name after a postal code and a [wofid] that are not empty). A line with
    an empty mandatory column is skipped, a missing file counts as empty,
    and no other step of [parse] and [loadTable] throws. *)
Theorem loading_fails_on_a_missing_column_only base override :
  loadTable toUpperCase parseInt base override = Pip.Throw Pip.TypeError ↔
  ∃ line,
    line ∈ default [] base ++ default [] override
    ∧ (line_postalcode line = None
       ∨ (truthy_text (line_postalcode line) = true
          ∧ line_wofid line = None)
       ∨ (truthy_text (line_postalcode line) = true
          ∧ truthy_text (line_wofid line) = true
          ∧ line_name line = None)).
Proof.
  rewrite loadTable_Throw. apply exist_proper. intros line.
  apply and_iff_compat_l. unfold has_mandatory_columns.
  destruct (line_postalcode line) as [[|? ?]|],
           (line_wofid line) as [[|? ?]|],
           (line_name line) as [[|? ?]|]; simpl; naive_solver.
Qed.

Lemma normalizePostcode_no_isocode postcode :
  normalizePostcode toUpperCase postcode None
  = filter (λ c, is_white_space c = false) (toUpperCase postcode).
Proof.
  unfold normalizePostcode. rewrite bool_decide_false; [done|].
  by intros (? & ? & _)%list_elem_of_fmap.
Qed.

Lemma post_process_nil l :
  post_process l = [] ↔ ∀ a, a ∈ l → is_valid a = false.
Proof.
  unfold post_process.
  assert (∀ l', uniqBy_wofid [] l' = [] ↔ l' = []) as Huniq.
  { intros [|a l']; [done|]. unfold uniqBy_wofid; fold uniqBy_wofid.
    by rewrite bool_decide_false by apply not_elem_of_nil. }
  rewrite Huniq. split.
  - intros Hnil a Hin. destruct (is_valid a) eqn:Hvalid; [|done].
    assert (a ∈ stable (filter (λ a, is_valid a = true) l)) as Habs.
    { rewrite stable_perm. by apply list_elem_of_filter. }
    rewrite Hnil in Habs. inversion Habs.
  - intros Hall.
    destruct (stable (filter (λ a, is_valid a = true) l)) as [|a l'] eqn:E;
      [done|].
    assert (a ∈ stable (filter (λ a, is_valid a = true) l)) as Hin
      by (rewrite E; by left).
    rewrite stable_perm in Hin.
    apply list_elem_of_filter in Hin as (Hvalid & Hin).
    rewrite (Hall a Hin) in Hvalid. done.
Qed.

(** X14. The tables are clean. Every key of a loaded table is free of
    white space, no two rows of a list have the same [wofid], and every row
    has a name that is not empty and a [wofid] that is not empty and free
    of white space. A key whose rows are all invalid stays in the table with
    the empty list. *)
Theorem loaded_tables_are_clean base override table key alternatives :
  loadTable toUpperCase parseInt base override = Pip.Ok table →
  table !! key = Some alternatives →
  Forall (λ c, is_white_space c = false) key
  ∧ NoDup (wofid <$> alternatives)
  ∧ (∀ a, a ∈ alternatives →
          wofid a ≠ [] ∧ name a ≠ []
          ∧ Forall (λ c, is_white_space c = false) (wofid a))
  ∧ (alternatives = [] ↔
     ∀ a, a ∈ alternatives_for toUpperCase parseInt key
                (parsed_rows base override) →
          is_valid a = false).
Proof.
  intros Hload Hkey. rewrite (loadTable_Ok_inv _ _ _ _ Hload) in Hkey.
  destruct (alternatives_for toUpperCase parseInt key
              (parsed_rows base override)) as [|a0 alts] eqn:Halts; [done|].
  injection Hkey as <-. split_and!; [| | |apply post_process_nil].
  - assert (a0 ∈ alternatives_for toUpperCase parseInt key
                   (parsed_rows base override)) as Hin
      by (rewrite Halts; by left).
    apply elem_of_alternatives_for in Hin
      as (row & pc & w & n & _ & _ & _ & _ & <- & _).
    rewrite normalizePostcode_no_isocode. apply Forall_forall.
    by intros c (? & _)%list_elem_of_filter.
  - apply uniqBy_wofid_NoDup.
  - intros a (Hin & Hvalid)%elem_of_post_process.
    rewrite <- Halts in Hin.
    apply elem_of_alternatives_for in Hin
      as (row & pc & w & n & _ & _ & _ & _ & _ & ->).
    unfold is_valid in Hvalid. apply andb_true_iff in Hvalid as (Hw & Hn).
    split_and!.
    + by destruct (wofid _).
    + by destruct (name _).
    + simpl. apply Forall_forall.
      by intros c (? & _)%list_elem_of_filter.
Qed.

Lemma alternatives_for_weights key rows :
  weights_parse parseInt rows →
  weights_are_numbers (alternatives_for toUpperCase parseInt key rows).
Proof.
  unfold weights_parse, weights_are_numbers. rewrite !Forall_forall.
  intros Hrows a Hin.
  apply elem_of_alternatives_for in Hin
    as (row & pc & w & n & Hin & _ & _ & _ & _ & ->).
  simpl. by apply Hrows.
Qed.

(** X15. When every weight is a number, each list of a loaded table is in
    the order of its weights, the heaviest row first. *)
Theorem loaded_lists_are_sorted_by_weight
    base override table key alternatives :
  loadTable toUpperCase parseInt base override = Pip.Ok table →
  weights_parse parseInt (parsed_rows base override) →
  table !! key = Some alternatives →
  StronglySorted (λ a b, (weight_of b ≤ weight_of a)%Z) alternatives
  ∧ ∀ i j a b, (i < j)%nat →
      alternatives !! i = Some a → alternatives !! j = Some b →
      ∃ x y, weight a = Some x ∧ weight b = Some y ∧ (y ≤ x)%Z.
Proof.
  intros Hload Hweights Hkey.
  rewrite (loadTable_Ok_inv _ _ _ _ Hload) in Hkey.
  pose proof (alternatives_for_weights key _ Hweights) as Hnum.
  destruct (alternatives_for toUpperCase parseInt key
              (parsed_rows base override)) as [|a0 alts] eqn:Halts; [done|].
  injection Hkey as <-.
  pose proof (post_process_sorted _ Hnum) as Hsorted.
  split; [done|]. intros i j a b Hij Ha Hb.
  assert (∀ c, c ∈ post_process (a0 :: alts) → is_Some (weight c)) as Hsome.
  { intros c (Hc & _)%elem_of_post_process.
    unfold weights_are_numbers in Hnum. rewrite Forall_forall in Hnum.
    by apply Hnum. }
  destruct (Hsome a) as [x Hx]; [by eapply list_elem_of_lookup_2|].
  destruct (Hsome b) as [y Hy]; [by eapply list_elem_of_lookup_2|].
  exists x, y. split_and!; [done..|].
  rewrite <- (take_drop_middle _ _ _ Ha) in Hsorted, Hb.
  apply StronglySorted_app_1_r, StronglySorted_cons in Hsorted as (Hall & _).
  rewrite Forall_forall in Hall.
  assert (b ∈ drop (S i) (post_process (a0 :: alts))) as Hin.
  { pose proof (lookup_lt_Some _ _ _ Ha) as Hlen.
    rewrite lookup_app_r in Hb by (rewrite length_take; lia).
    rewrite length_take, Nat.min_l in Hb by lia.
    destruct (j - i)%nat as [|d] eqn:Hd; [lia|]. simpl in Hb.
    by eapply list_elem_of_lookup_2. }
  specialize (Hall b Hin). unfold weight_of in Hall.
  by rewrite Hx, Hy in Hall.
Qed.

Lemma post_process_keeps_wofid l a :
  a ∈ l → is_valid a = true →
  ∃ a', a' ∈ post_process l ∧ wofid a' = wofid a.
Proof.
  intros Hin Hvalid. unfold post_process.
  destruct (uniqBy_wofid_first []
              (stable (filter (λ a, is_valid a = true) l)) a)
    as (l1 & a' & l2 & _ & Hw & Hkept & _); [|apply not_elem_of_nil|by exists a'].
  rewrite stable_perm. by apply list_elem_of_filter.
Qed.

(** A valid row that [parse] keeps has a row of its [wofid] in the table,
    under its normalized postal code; that row weighs at least as much when
    the weights are numbers. *)
Lemma row_is_represented
    base override table row postalcode wofid_column name_column :
  loadTable toUpperCase parseInt base override = Pip.Ok table →
  row ∈ parsed_rows base override →
  line_postalcode row = Some postalcode →
  line_wofid row = Some wofid_column →
  line_name row = Some name_column →
  is_valid (alternative_of parseInt wofid_column name_column row) = true →
  ∃ alternatives a',
    table !! normalizePostcode toUpperCase postalcode None
      = Some alternatives
    ∧ a' ∈ alternatives
    ∧ wofid a' = filter (λ c, is_white_space c = false) wofid_column
    ∧ (weights_parse parseInt (parsed_rows base override) →
       (weight_of (alternative_of parseInt wofid_column name_column row)
        ≤ weight_of a')%Z).
Proof.
  intros Hload Hrow Hpc Hw Hn Hvalid.
  set (a := alternative_of parseInt wofid_column name_column row) in *.
  set (key := normalizePostcode toUpperCase postalcode None).
  rewrite (loadTable_Ok_inv _ _ _ key Hload).
  assert (a ∈ alternatives_for toUpperCase parseInt key
                (parsed_rows base override)) as Hin.
  { apply elem_of_alternatives_for.
    by exists row, postalcode, wofid_column, name_column. }
  destruct (alternatives_for toUpperCase parseInt key
              (parsed_rows base override)) as [|a0 alts] eqn:Halts;
    [inversion Hin|].
  exists (post_process (a0 :: alts)).
  assert (∀ a1 a2, a1 ∈ post_process (a0 :: alts) →
                   a2 ∈ post_process (a0 :: alts) →
                   wofid a1 = wofid a2 → a1 = a2) as Hinj.
  { intros a1 a2 H1 H2 Hsame.
    pose proof (uniqBy_wofid_NoDup []
                  (stable (filter (λ a, is_valid a = true) (a0 :: alts))))
      as Hnd.
    fold (post_process (a0 :: alts)) in Hnd.
    apply list_elem_of_lookup in H1 as (i1 & H1).
    apply list_elem_of_lookup in H2 as (i2 & H2).
    assert (i1 = i2) as ->; [|congruence].
    eapply NoDup_lookup; [exact Hnd| |];
      rewrite list_lookup_fmap; [by rewrite H1|by rewrite H2, Hsame]. }
  destruct (post_process_keeps_wofid _ a Hin Hvalid) as (a' & Hin' & Hsame).
  exists a'. split_and!; [done..|].
  intros Hweights.
  pose proof (alternatives_for_weights key _ Hweights) as Hnum.
  rewrite Halts in Hnum.
  destruct (post_process_best _ a Hnum Hin Hvalid) as (a'' & Hin'' & Hs & Hle).
  by rewrite (Hinj a' a'' Hin' Hin'') by congruence.
Qed.

(** X16. A duplicate does not lose the heaviest weight. When every weight
    is a number, every valid row that [parse] keeps is represented in the
    table, under its normalized postal code, by a row of the same [wofid]
    that weighs at least as much. *)
Theorem heaviest_duplicate_is_kept
    base override table row postalcode wofid_column name_column :
  loadTable toUpperCase parseInt base override = Pip.Ok table →
  weights_parse parseInt (parsed_rows base override) →
  row ∈ parsed_rows base override →
  line_postalcode row = Some postalcode →
  line_wofid row = Some wofid_column →
  line_name row = Some name_column →
  let a := alternative_of parseInt wofid_column name_column row in
  is_valid a = true →
  ∃ alternatives a',
    table !! normalizePostcode toUpperCase postalcode None
      = Some alternatives
    ∧ a' ∈ alternatives
    ∧ wofid a' = wofid a
    ∧ (weight_of a ≤ weight_of a')%Z.
Proof.
  intros Hload Hweights Hrow Hpc Hw Hn a Hvalid.
  destruct (row_is_represented base override table row postalcode
              wofid_column name_column Hload Hrow Hpc Hw Hn Hvalid)
    as (alts & a' & Hkey & Hin & Hsame & Hle).
  exists alts, a'. split_and!; [done..|]. by apply Hle.
Qed.

(** X17. The override file takes priority. A line of the override file
    that has no weight gets the weight [Number.MAX_SAFE_INTEGER]: when the
    weights are numbers, a valid one is represented in the table by a row
    of its [wofid] that weighs at least that much. *)
Theorem override_line_without_weight_gets_the_top_weight
    base lines table line postalcode wofid_column name_column :
  loadTable toUpperCase parseInt base (Some lines) = Pip.Ok table →
  weights_parse parseInt (parsed_rows base (Some lines)) →
  parseInt (WeightNumber MAX_SAFE_INTEGER) = Some MAX_SAFE_INTEGER →
  line ∈ lines →
  line_postalcode line = Some postalcode →
  line_wofid line = Some wofid_column →
  line_name line = Some name_column →
  is_complete line = true →
  truthy_weight (line_weight line) = false →
  truthy_text
    (Some (filter (λ c, is_white_space c = false) wofid_column)) = true →
  truthy_text (Some (trim name_column)) = true →
  ∃ alternatives a',
    table !! normalizePostcode toUpperCase postalcode None
      = Some alternatives
    ∧ a' ∈ alternatives
    ∧ wofid a' = filter (λ c, is_white_space c = false) wofid_column
    ∧ (MAX_SAFE_INTEGER ≤ weight_of a')%Z.
Proof.
  intros Hload Hweights Hmax Hin Hpc Hw Hn Hcomplete Hnoweight Hwofid Hname.
  set (row := assign_default_weight (Some MAX_SAFE_INTEGER) line).
  assert (row = {| line_postalcode := line_postalcode line;
                   line_wofid := line_wofid line;
                   line_name := line_name line;
                   line_abbr := line_abbr line;
                   line_placetype := line_placetype line;
                   line_weight := Some (WeightNumber MAX_SAFE_INTEGER) |})
    as Hrow.
  { unfold row, assign_default_weight. by rewrite Hnoweight. }
  destruct (row_is_represented base (Some lines) table row postalcode
              wofid_column name_column Hload)
    as (alts & a' & Hkey & Hin' & Hsame & Hle).
  - unfold parsed_rows. apply elem_of_app. right.
    apply list_elem_of_fmap. exists line. split; [done|].
    by apply list_elem_of_filter.
  - by rewrite Hrow.
  - by rewrite Hrow.
  - by rewrite Hrow.
  - unfold is_valid. apply andb_true_iff.
    split; [exact Hwofid|exact Hname].
  - exists alts, a'. split_and!; [done..|].
    specialize (Hle Hweights). revert Hle.
    unfold weight_of at 1. simpl. rewrite Hrow. simpl.
    unfold row_weight. simpl. by rewrite Hmax.
Qed.

End LoadingATable.

(** ** Looking up in the loaded tables *)

Section LoadedTables.

Import PostalCityMap PostalCityLoad.
Variable toUpperCase : JsString → JsString.
Variable parseInt : Weight → option Z.
Variable files : JsString → option (list Line) * option (list Line).

Lemma load_tables_Ok codes tables :
  load_tables toUpperCase parseInt files codes = Pip.Ok tables →
  ∀ cc,
    (cc ∈ codes →
     ∃ table,
       loadTable toUpperCase parseInt (files cc).1 (files cc).2
         = Pip.Ok table
       ∧ tables !! cc = Some table)
    ∧ (cc ∉ codes → tables !! cc = None).
Proof.
  revert tables. induction codes as [|c codes IH]; intros tables; simpl.
  { intros [= <-] cc. split; [by intros H; inversion H|done]. }
  destruct (loadTable _ _ _ _) as [table|] eqn:Hload; [|done].
  destruct (load_tables _ _ _ codes) as [tables'|]; [|done].
  intros [= <-] cc. destruct (IH tables' eq_refl cc) as (Hin & Hout).
  destruct (decide (c = cc)) as [->|Hne].
  - rewrite lookup_insert_eq. split; [by exists table|].
    intros Hn. exfalso. apply Hn. by left.
  - rewrite lookup_insert_ne by done. split.
    + intros [?|?]%elem_of_cons; [done|by apply Hin].
    + intros Hn. apply Hout. intros ?. apply Hn. by right.
Qed.

(** X18. The loaded tables are those of the seven country codes: each of
    them has a table, even when it has no file (an empty table then), and
    no other code has one, so that [lookup] answers [null] for every other
    code. Every country of the 'zip' system is among the seven. *)
Theorem tables_are_those_of_the_seven_countries tables :
  load_tables toUpperCase parseInt files table_codes = Pip.Ok tables →
  (∀ cc, is_Some (tables !! cc) ↔ cc ∈ table_codes)
  ∧ (∀ cc postalcode, cc ∉ table_codes →
       lookup toUpperCase tables cc postalcode = None)
  ∧ (∀ cc, cc ∈ table_codes → (files cc) = (None, None) →
       tables !! cc = Some ∅)
  ∧ (∀ cc, cc ∈ USA_ISO_CODES → cc ∈ table_codes).
Proof.
  intros Hload. pose proof (load_tables_Ok _ _ Hload) as Htables.
  split_and!.
  - intros cc. destruct (Htables cc) as (Hin & Hout). split.
    + intros Hsome. destruct (decide (cc ∈ table_codes)) as [?|Hn]; [done|].
      rewrite (Hout Hn) in Hsome. by destruct Hsome.
    + intros (table & _ & ->)%Hin. done.
  - intros cc postalcode Hn. unfold lookup.
    by rewrite (proj2 (Htables cc) Hn).
  - intros cc Hin Hfiles.
    destruct (proj1 (Htables cc) Hin) as (table & Htable & ->).
    rewrite Hfiles in Htable. simpl in Htable. unfold loadTable in Htable.
    simpl in Htable. injection Htable as <-. by rewrite fmap_empty.
  - intros cc Hin. unfold USA_ISO_CODES, table_codes in *.
    set_solver.
Qed.

(** A valid row that [parse] keeps is found by every postal code that has
    the same key for [lookup] as the postal code of the row has for
    [loadTable]. *)
Lemma lookup_finds_row
    tables cc row postalcode wofid_column name_column asked :
  load_tables toUpperCase parseInt files table_codes = Pip.Ok tables →
  cc ∈ table_codes →
  row ∈ parsed_rows (files cc).1 (files cc).2 →
  line_postalcode row = Some postalcode →
  line_wofid row = Some wofid_column →
  line_name row = Some name_column →
  is_valid (alternative_of parseInt wofid_column name_column row) = true →
  normalizePostcode toUpperCase asked (Some cc)
    = normalizePostcode toUpperCase postalcode None →
  ∃ alternatives a',
    lookup toUpperCase tables cc asked = Some alternatives
    ∧ a' ∈ alternatives
    ∧ wofid a' = filter (λ c, is_white_space c = false) wofid_column.
Proof.
  intros Hload Hcc Hrow Hpc Hw Hn Hvalid Hkey.
  destruct (proj1 (load_tables_Ok _ _ Hload cc) Hcc)
    as (table & Htable & Hlookup).
  destruct (row_is_represented toUpperCase parseInt _ _ table row postalcode
              wofid_column name_column Htable Hrow Hpc Hw Hn Hvalid)
    as (alts & a' & Halts & Hin & Hsame & _).
  exists alts, a'. split_and!; [|done..].
  unfold lookup. by rewrite Hlookup, Hkey, Halts.
Qed.

(** X19. Outside the 'zip' system (New Zealand), a row that [parse] keeps
    and that is valid is found under its postal code as the file writes it:
    [lookup] answers a list that has a row of its [wofid]. *)
Theorem postal_code_of_the_file_finds_its_row
    tables cc row postalcode wofid_column name_column :
  load_tables toUpperCase parseInt files table_codes = Pip.Ok tables →
  cc ∈ table_codes →
  cc ∉ USA_ISO_CODES →
  row ∈ parsed_rows (files cc).1 (files cc).2 →
  line_postalcode row = Some postalcode →
  line_wofid row = Some wofid_column →
  line_name row = Some name_column →
  is_valid (alternative_of parseInt wofid_column name_column row) = true →
  ∃ alternatives a',
    lookup toUpperCase tables cc postalcode = Some alternatives
    ∧ a' ∈ alternatives
    ∧ wofid a' = filter (λ c, is_white_space c = false) wofid_column.
Proof.
  intros Hload Hcc Hzip Hrow Hpc Hw Hn Hvalid.
  apply (lookup_finds_row tables cc row postalcode wofid_column name_column
           postalcode); try done.
  unfold normalizePostcode.
  rewrite !bool_decide_false; [done| |].
  - by intros (? & ? & _)%list_elem_of_fmap.
  - intros (c & [= ->] & ?)%list_elem_of_fmap. done.
Qed.

(** X20. In the 'zip' system, a valid row whose postal code in the file is
    five digits is found by these digits with any prefix without digits
    and any suffix: [lookup] answers a list that has a row of its [wofid].
    ([toUpperCase] leaves digits as they are.) *)
Theorem five_digit_row_is_found_by_padded_codes
    tables cc row digits wofid_column name_column prefix suffix :
  load_tables toUpperCase parseInt files table_codes = Pip.Ok tables →
  cc ∈ USA_ISO_CODES →
  row ∈ parsed_rows (files cc).1 (files cc).2 →
  line_postalcode row = Some digits →
  line_wofid row = Some wofid_column →
  line_name row = Some name_column →
  is_valid (alternative_of parseInt wofid_column name_column row) = true →
  length digits = 5%nat →
  forallb is_digit digits = true →
  toUpperCase digits = digits →
  forallb (λ c, negb (is_digit c)) prefix = true →
  ∃ alternatives a',
    lookup toUpperCase tables cc (prefix ++ digits ++ suffix)
      = Some alternatives
    ∧ a' ∈ alternatives
    ∧ wofid a' = filter (λ c, is_white_space c = false) wofid_column.
Proof.
  intros Hload Hcc Hrow Hpc Hw Hn Hvalid Hlen Hdigits Hupper Hprefix.
  apply (lookup_finds_row tables cc row digits wofid_column name_column);
    try done.
  { unfold USA_ISO_CODES, table_codes in *. set_solver. }
  rewrite normalizePostcode_zip_padded by done.
  rewrite normalizePostcode_no_isocode, Hupper. symmetry.
  clear -Hdigits. induction digits as [|c digits IH]; [done|].
  simpl in Hdigits. apply andb_true_iff in Hdigits as (Hc & Hdigits).
  rewrite filter_cons_True; [by rewrite IH|].
  unfold is_digit in Hc. apply andb_true_iff in Hc as (Hlo & Hhi).
  apply N.leb_le in Hlo, Hhi.
  destruct (is_white_space c) eqn:Hspace; [exfalso|done].
  unfold is_white_space, is_line_terminator in Hspace.
  apply orb_true_iff in Hspace as [[Hs|Hs]%orb_true_iff|Hs].
  - apply bool_decide_eq_true in Hs. set_solver by lia.
  - apply andb_true_iff in Hs as (Hs & _). apply N.leb_le in Hs. lia.
  - apply bool_decide_eq_true in Hs. set_solver by lia.
Qed.

End LoadedTables.

(** ** The further theorems on the examples *)

Section MasterOnTheExampleService.

Import Pip Examples.

Lemma results_concern_their_request_only_witness :
  match handleResults two_pending (hit 0 "201") with
  | Ok (s', acts) =>
      (∀ id, id ≠ 0 →
             responseQueue s' !! id = responseQueue two_pending !! id)
      ∧ requestCount s' = requestCount two_pending
      ∧ workers s' = workers two_pending
      ∧ wofData s' = wofData two_pending
      ∧ (∀ id layer, (id, layer) ∈ sent acts → id = 0)
      ∧ (∀ cb res, (cb, res) ∈ responded acts →
           ∃ req, responseQueue two_pending !! 0 = Some req
                  ∧ cb = responseCallback req)
  | Throw _ => False
  end.
Proof.
  destruct (handleResults two_pending (hit 0 "201")) as [[s' acts]|e] eqn:H.
  - exact (results_concern_their_request_only two_pending (hit 0 "201")
             s' acts H).
  - vm_compute in H. discriminate H.
Defined.

Lemma lookup_keeps_pending_requests_witness :
  match lookup layers two_pending 42%Z (-72)%Z None 9%nat with
  | Ok (s', acts) =>
      (∀ id req, responseQueue two_pending !! id = Some req →
                 responseQueue s' !! id = Some req)
      ∧ workers s' = workers two_pending
      ∧ wofData s' = wofData two_pending
      ∧ (∀ cb' res, (cb', res) ∈ responded acts → cb' = 9%nat ∧ res = [])
      ∧ (∀ id layer, (id, layer) ∈ sent acts →
           id = requestCount two_pending
           ∧ responseQueue two_pending !! id = None)
  | Throw _ => False
  end.
Proof.
  destruct (lookup layers two_pending 42%Z (-72)%Z None 9%nat)
    as [[s' acts]|e] eqn:H.
  - exact (lookup_keeps_pending_requests layers two_pending 42%Z (-72)%Z
             None 9%nat s' acts H).
  - vm_compute in H. discriminate H.
Defined.

Lemma running_master_throws_on_unknown_feature_only_witness :
  (∃ s' acts,
     lookup layers (master searching_next) 41%Z (-73)%Z (Some ["country"])
       8%nat = Ok (s', acts))
  ∧ (handleResults (master searching_next) (hit 0 "404") = Throw TypeError ↔
     ∃ req matched,
       responseQueue (master searching_next) !! msg_id (hit 0 "404")
         = Some req
       ∧ msg_results (hit 0 "404") = Some matched
       ∧ wofData (master searching_next) !! matched = None).
Proof.
  destruct (running_master_throws_on_unknown_feature_only layers
              searching_next searching_next_reachable) as (Hlookup & Hthrow).
  split; [apply Hlookup|apply Hthrow].
Defined.

Lemma ids_are_fresh_below_saturation_witness :
  responseQueue (master searching_next) !! requestCount (master searching_next)
    = None
  ∧ ∃ s' acts,
      lookup layers (master searching_next) 41%Z (-73)%Z None 8%nat
        = Ok (s', acts)
      ∧ requestCount s' = requestCount (master searching_next) + 1
      ∧ ∀ id, LogError (AlreadyPresent id) ∉ acts.
Proof.
  apply (ids_are_fresh_below_saturation layers searching_next 41%Z (-73)%Z
           None 8%nat searching_next_reachable).
  vm_compute. reflexivity.
Defined.

Lemma all_misses_search_every_layer_then_answer_empty_witness :
  (run layers (master searching_next)
     (LookupCall 41%Z (-73)%Z (Some ["country"; "locality"]) 8%nat
      :: replicate 2 (ResultsMsg (miss 1)))).1
  = [Send "locality" 1 {| latitude := 41%Z; longitude := (-73)%Z |};
     Send "country" 1 {| latitude := 41%Z; longitude := (-73)%Z |};
     Respond 8%nat None []].
Proof.
  apply (all_misses_search_every_layer_then_answer_empty layers
           searching_next 41%Z (-73)%Z (Some ["country"; "locality"]) 8%nat
           searching_next_reachable).
  vm_compute. reflexivity.
Defined.

Lemma hit_after_misses_answers_the_hierarchy_witness :
  ∃ s',
    run layers (master searching_next)
      (LookupCall 41%Z (-73)%Z None 8%nat
       :: replicate 2 (ResultsMsg (miss 1))
       ++ [ResultsMsg (hit 1 "X")])
    = (map (λ layer,
              Send layer 1 {| latitude := 41%Z; longitude := (-73)%Z |})
         (take 3 (lookup_search_layers layers None))
       ++ [Respond 8%nat None
             (HierarchyAssembler_resolve (wofData (master searching_next))
                (feature "X" []))],
       Some s')
    ∧ responseQueue s' !! 1 = None.
Proof.
  apply (hit_after_misses_answers_the_hierarchy layers searching_next
           41%Z (-73)%Z None 8%nat 2 "X" (feature "X" [])
           searching_next_reachable).
  - vm_compute. reflexivity.
  - vm_compute. lia.
  - vm_compute. reflexivity.
Defined.

End MasterOnTheExampleService.

Section StartupOnTheExamples.

Import Pip Startup Examples MoreExamples.

Local Abbreviation loading_Z := (loading (Num:=Z) (Meta:=unit)).
Local Abbreviation module_Z := (module_loaded (Num:=Z) (Meta:=unit)).

Lemma loading_ends_in_the_initial_state_witness :
  ∃ wof,
    loading_Z [("country", country_data); ("locality", locality_data)]
      module_Z
    = master (initial ["locality"; "country"] wof)
    ∧ ∀ id r,
        wof !! id = Some r ↔
        ∃ before layer data after,
          [("country", country_data); ("locality", locality_data)]
          = before ++ (layer, data) :: after
          ∧ data !! id = Some r
          ∧ ∀ layer' data', (layer', data') ∈ after → data' !! id = None.
Proof.
  apply (loading_ends_in_the_initial_state ["locality"; "country"]
           [("country", country_data); ("locality", locality_data)]).
  simpl. apply Permutation_swap.
Defined.

(** The two workers disagree on the locality "101": the country worker,
    which reports last, hands over a copy without hierarchy, and that copy
    is the one of the dataset. *)
Lemma last_arrival_wins_witness :
  wofData
    (loading_Z
       ([("locality", locality_data)]
        ++ ("country", country_data_stale) :: [])
       module_Z) !! "101"
  = Some (feature "101" []).
Proof.
  apply (last_arrival_wins (Num:=Z) [("locality", locality_data)] "country"
           country_data_stale [] module_Z "101").
  - vm_compute. reflexivity.
  - intros layer data Hin. inversion Hin.
Defined.

Lemma loading_order_does_not_matter_witness :
  (wofData
     (loading_Z
        [("locality", locality_data); ("country", country_data)]
        module_Z) !! "101"
   = Some (feature "101" [[ ("locality_id", "101"); ("country_id", "301") ]])
   ↔ ∃ layer data,
       (layer, data)
         ∈ [("locality", locality_data); ("country", country_data)]
       ∧ data !! "101"
         = Some (feature "101"
                   [[ ("locality_id", "101"); ("country_id", "301") ]]))
  ∧ loading_Z [("country", country_data); ("locality", locality_data)]
      module_Z
    = loading_Z
        [("locality", locality_data); ("country", country_data)]
        module_Z.
Proof.
  destruct (loading_order_does_not_matter (Num:=Z)
              [("locality", locality_data); ("country", country_data)]
              [("country", country_data); ("locality", locality_data)])
    as (Hchar & Horder).
  - intros layer1 data1 layer2 data2 id r1 r2 Hin1 Hin2.
    apply elem_of_cons in Hin1 as [Hin1|Hin1%list_elem_of_singleton];
      apply elem_of_cons in Hin2 as [Hin2|Hin2%list_elem_of_singleton];
      injection Hin1 as -> ->; injection Hin2 as -> ->;
      intros H1 H2; try congruence.
    + assert (id = "101") as ->.
      { unfold locality_data in H1. simpl in H1.
        apply lookup_insert_Some in H1 as [(<- & _)|(_ & H1)]; [done|].
        by rewrite lookup_empty in H1. }
      vm_compute in H2. discriminate H2.
    + assert (id = "101") as ->.
      { unfold locality_data in H2. simpl in H2.
        apply lookup_insert_Some in H2 as [(<- & _)|(_ & H2)]; [done|].
        by rewrite lookup_empty in H2. }
      vm_compute in H1. discriminate H1.
  - apply Permutation_swap.
  - split; [apply Hchar|exact Horder].
Defined.

End StartupOnTheExamples.

Section PostalCityOnTheExamples.

Import PostalCityMap PostalCityLoad MoreExamples.

Lemma usa_is_a_zip_country : js "USA" ∈ USA_ISO_CODES.
Proof. apply list_elem_of_here. Defined.

Lemma usa_table_is_loaded :
  loadTable ascii_toUpperCase decimal_parseInt (Some usa_base)
    (Some usa_override) = Pip.Ok usa_table.
Proof. vm_compute. reflexivity. Defined.

Lemma tables_are_loaded :
  load_tables ascii_toUpperCase decimal_parseInt files table_codes
  = Pip.Ok tables.
Proof. vm_compute. reflexivity. Defined.

Lemma usa_weights_parse :
  weights_parse decimal_parseInt
    (parsed_rows (Some usa_base) (Some usa_override)).
Proof.
  unfold weights_parse.
  let rows := eval vm_compute in
                (parsed_rows (Some usa_base) (Some usa_override)) in
  replace (parsed_rows (Some usa_base) (Some usa_override)) with rows
    by (vm_compute; reflexivity).
  repeat (apply Forall_cons; split; [eexists; reflexivity|]).
  constructor.
Defined.

Lemma zip_normalization_is_idempotent_witness :
  (length (normalizePostcode ascii_toUpperCase (js "CA 94610-2737")
             (Some (js "USA"))) ≤ 5)%nat
  ∧ forallb is_digit
      (normalizePostcode ascii_toUpperCase (js "CA 94610-2737")
         (Some (js "USA"))) = true
  ∧ normalizePostcode ascii_toUpperCase
      (normalizePostcode ascii_toUpperCase (js "CA 94610-2737")
         (Some (js "USA")))
      (Some (js "USA"))
    = normalizePostcode ascii_toUpperCase (js "CA 94610-2737")
        (Some (js "USA"))
  ∧ lookup ascii_toUpperCase tables (js "USA")
      (normalizePostcode ascii_toUpperCase (js "CA 94610-2737")
         (Some (js "USA")))
    = lookup ascii_toUpperCase tables (js "USA") (js "CA 94610-2737").
Proof.
  exact (zip_normalization_is_idempotent ascii_toUpperCase tables
           (js "USA") (js "CA 94610-2737") usa_is_a_zip_country).
Defined.

Lemma zip_prefix_and_suffix_are_dropped_witness :
  normalizePostcode ascii_toUpperCase
    (js "CA " ++ js "94610" ++ js "-2737") (Some (js "USA"))
  = js "94610"
  ∧ lookup ascii_toUpperCase tables (js "USA")
      (js "CA " ++ js "94610" ++ js "-2737")
    = lookup ascii_toUpperCase tables (js "USA") (js "94610").
Proof.
  apply (zip_prefix_and_suffix_are_dropped ascii_toUpperCase tables
           (js "USA") (js "CA ") (js "94610") (js "-2737")
           usa_is_a_zip_country); reflexivity.
Defined.

Lemma zip_lookup_reads_digit_keys_only_witness :
  match lookup ascii_toUpperCase tables (js "USA") (js "CA 94610-2737") with
  | Some alternatives =>
      ∃ table key,
        tables !! js "USA" = Some table
        ∧ table !! key = Some alternatives
        ∧ (length key ≤ 5)%nat
        ∧ forallb is_digit key = true
  | None => False
  end.
Proof.
  destruct (lookup ascii_toUpperCase tables (js "USA") (js "CA 94610-2737"))
    as [alternatives|] eqn:H.
  - exact (zip_lookup_reads_digit_keys_only ascii_toUpperCase tables
             (js "USA") (js "CA 94610-2737") alternatives
             usa_is_a_zip_country H).
  - vm_compute in H. discriminate H.
Defined.

Lemma loaded_tables_are_clean_witness :
  match usa_table !! js "94610" with
  | Some alternatives =>
      Forall (λ c, is_white_space c = false) (js "94610")
      ∧ NoDup (wofid <$> alternatives)
      ∧ (∀ a, a ∈ alternatives →
              wofid a ≠ [] ∧ name a ≠ []
              ∧ Forall (λ c, is_white_space c = false) (wofid a))
      ∧ (alternatives = [] ↔
         ∀ a, a ∈ alternatives_for ascii_toUpperCase decimal_parseInt
                    (js "94610")
                    (parsed_rows (Some usa_base) (Some usa_override)) →
              is_valid a = false)
  | None => False
  end.
Proof.
  destruct (usa_table !! js "94610") as [alternatives|] eqn:H.
  - exact (loaded_tables_are_clean ascii_toUpperCase decimal_parseInt
             (Some usa_base) (Some usa_override) usa_table (js "94610")
             alternatives usa_table_is_loaded H).
  - vm_compute in H. discriminate H.
Defined.

Lemma loaded_lists_are_sorted_by_weight_witness :
  match usa_table !! js "94610" with
  | Some alternatives =>
      StronglySorted (λ a b, (weight_of b ≤ weight_of a)%Z) alternatives
      ∧ ∀ i j a b, (i < j)%nat →
          alternatives !! i = Some a → alternatives !! j = Some b →
          ∃ x y, weight a = Some x ∧ weight b = Some y ∧ (y ≤ x)%Z
  | None => False
  end.
Proof.
  destruct (usa_table !! js "94610") as [alternatives|] eqn:H.
  - exact (loaded_lists_are_sorted_by_weight ascii_toUpperCase
             decimal_parseInt (Some usa_base) (Some usa_override) usa_table
             (js "94610") alternatives usa_table_is_loaded
             usa_weights_parse H).
  - vm_compute in H. discriminate H.
Defined.

Lemma heaviest_duplicate_is_kept_witness :
  ∃ alternatives a',
    usa_table !! normalizePostcode ascii_toUpperCase (js "94610") None
      = Some alternatives
    ∧ a' ∈ alternatives
    ∧ wofid a' = js "85921881"
    ∧ (5 ≤ weight_of a')%Z.
Proof.
  apply (heaviest_duplicate_is_kept ascii_toUpperCase decimal_parseInt
           (Some usa_base) (Some usa_override) usa_table
           (line "94610" "85921881" "Oakland" (weighing "5"))
           (js "94610") (js "85921881") (js "Oakland")
           usa_table_is_loaded usa_weights_parse).
  - vm_compute. apply list_elem_of_here.
  - reflexivity.
  - reflexivity.
  - reflexivity.
  - reflexivity.
Defined.

Lemma override_line_without_weight_gets_the_top_weight_witness :
  ∃ alternatives a',
    usa_table !! normalizePostcode ascii_toUpperCase (js "94610") None
      = Some alternatives
    ∧ a' ∈ alternatives
    ∧ wofid a'
      = filter (λ c, is_white_space c = false) (js "85922179")
    ∧ (MAX_SAFE_INTEGER ≤ weight_of a')%Z.
Proof.
  apply (override_line_without_weight_gets_the_top_weight ascii_toUpperCase
           decimal_parseInt (Some usa_base) usa_override usa_table
           (line "94610" "85922179" "Piedmont" None)
           (js "94610") (js "85922179") (js "Piedmont")
           usa_table_is_loaded usa_weights_parse).
  - reflexivity.
  - apply list_elem_of_here.
  - reflexivity.
  - reflexivity.
  - reflexivity.
  - reflexivity.
  - reflexivity.
  - reflexivity.
  - reflexivity.
Defined.

Lemma tables_are_those_of_the_seven_countries_witness :
  (∀ cc, is_Some (tables !! cc) ↔ cc ∈ table_codes)
  ∧ (∀ cc postalcode, cc ∉ table_codes →
       lookup ascii_toUpperCase tables cc postalcode = None)
  ∧ (∀ cc, cc ∈ table_codes → files cc = (None, None) →
       tables !! cc = Some ∅)
  ∧ (∀ cc, cc ∈ USA_ISO_CODES → cc ∈ table_codes).
Proof.
  exact (tables_are_those_of_the_seven_countries ascii_toUpperCase
           decimal_parseInt files tables tables_are_loaded).
Defined.

Lemma postal_code_of_the_file_finds_its_row_witness :
  ∃ alternatives a',
    lookup ascii_toUpperCase tables (js "NZL") (js "wlg 6012")
      = Some alternatives
    ∧ a' ∈ alternatives
    ∧ wofid a'
      = filter (λ c, is_white_space c = false) (js "101914243").
Proof.
  apply (postal_code_of_the_file_finds_its_row ascii_toUpperCase
           decimal_parseInt files tables (js "NZL")
           (line "wlg 6012" "101914243" "Wellington" (weighing "3"))
           (js "wlg 6012") (js "101914243") (js "Wellington")
           tables_are_loaded).
  - vm_compute. do 6 apply list_elem_of_further. apply list_elem_of_here.
  - intros Hin. vm_compute in Hin.
    repeat (apply elem_of_cons in Hin as [Hin|Hin]; [discriminate Hin|]).
    inversion Hin.
  - vm_compute. apply list_elem_of_further, list_elem_of_here.
  - reflexivity.
  - reflexivity.
  - reflexivity.
  - reflexivity.
Defined.

Lemma five_digit_row_is_found_by_padded_codes_witness :
  ∃ alternatives a',
    lookup ascii_toUpperCase tables (js "USA")
      (js "CA " ++ js "94610" ++ js "-2737")
      = Some alternatives
    ∧ a' ∈ alternatives
    ∧ wofid a'
      = filter (λ c, is_white_space c = false) (js "85921881").
Proof.
  apply (five_digit_row_is_found_by_padded_codes ascii_toUpperCase
           decimal_parseInt files tables (js "USA")
           (line "94610" "85921881" "Oakland" (weighing "5"))
           (js "94610") (js "85921881") (js "Oakland") (js "CA ")
           (js "-2737") tables_are_loaded usa_is_a_zip_country).
  - vm_compute. apply list_elem_of_here.
  - reflexivity.
  - reflexivity.
  - reflexivity.
  - reflexivity.
  - reflexivity.
  - reflexivity.
  - reflexivity.
  - reflexivity.
Defined.

End PostalCityOnTheExamples.
